(** * Day 07, part 2: branching paths through a grid of deflectors

    A shallow embedding of [src/07/day07.c] and the properties of its
    path-enumeration engine: the chained hash set of signatures, the
    frontier of in-flight paths, the generation loop of [part2], and
    what [main] does around it: reading the grid and scanning row 0 for
    the start column.

    Conventions of the embedding.
    - C [int] values are integers of [Z].  Rows, columns and signature
      lengths are shown below to stay between 0 and [height] (resp.
      [width]), so no signed arithmetic on them can overflow; the two
      counters ([timeline_count] and the set's [size]) only count
      allocated nodes.  The [unsigned int] accumulator of [hash_string]
      wraps modulo 2^32, as written out in [uint].
    - A [char] buffer is the list of its meaningful bytes: [memcpy] of
      [n] bytes is [take n], a store at index [n] right after an
      [n]-byte prefix is [sig_store].  An access that would leave a
      heap-allocated node, the line buffer of [main] or the array of the
      grid is a fault, [None].
    - A [PathList] is the list of its first [size] elements; the
      capacity doubling of [add_path] is storage management only.
    - The [printf] trace of [part2] has no effect on the result and is
      left out. *)

From Stdlib Require Import ZArith List Ascii Lia.
From Equations Require Import Equations.
From stdpp Require Import base option list gmap strings.

Local Open Scope Z_scope.

(** ** Constants and data *)

Definition MAX_GRID_SIZE : Z := 1000.
Definition MAX_SIGNATURE_LEN : Z := 10000.
Definition HASH_TABLE_SIZE : Z := 1048576.

(** The terminator byte of C strings. *)
Definition NUL : ascii := "000"%char.

(** A [Path]; [signature] is the first [sig_len] bytes of its buffer
    (the terminator [add_path] stores after them is read by the trace
    only). *)
Record Path := mkPath {
  row : Z;
  col : Z;
  sig_len : Z;
  signature : list ascii
}.

(** The globals [grid], [height] and [width]. *)
Record Globals := mkGlobals {
  grid : list (list ascii);
  height : Z;
  width : Z
}.

(** [grid[r][c]]: the array is a zero-initialised global, so a byte that
    no row was copied to reads as [NUL]. *)
Definition grid_at (g : Globals) (r c : Z) : ascii :=
  nth (Z.to_nat c) (nth (Z.to_nat r) (grid g) []) NUL.

(** A node of a bucket chain owns a buffer of [len + 1] bytes; a chain is
    the list of its nodes' buffers, head first.  [buckets] maps an index
    of the table to its chain, an index without a binding being a [NULL]
    head; [hsize] is the field [size]. *)
Record HashSet := mkHashSet {
  buckets : gmap Z (list (list ascii));
  hsize : Z
}.

(** ** The hash set *)

Definition uint (x : Z) : Z := x mod 2 ^ 32.

(** A [char] promoted to [int] (signed [char]). *)
Definition char_val (c : ascii) : Z :=
  let n := Z.of_N (N_of_ascii c) in
  if n <? 128 then n else n - 256.

(** [hash = ((hash << 5) + hash) + str[i]] on [unsigned int]. *)
Definition hash_step (hash : Z) (c : ascii) : Z :=
  uint (uint (uint (Z.shiftl hash 5) + hash) + char_val c).

Definition hash_string (str : list ascii) (len : Z) : Z :=
  fold_left hash_step (take (Z.to_nat len) str) 5381 mod HASH_TABLE_SIZE.

Definition create_hash_set : HashSet :=
  {| buckets := ∅; hsize := 0 |}.

(** [set->buckets[hash]]; a [NULL] head is the empty chain. *)
Definition bucket (set : HashSet) (hash : Z) : list (list ascii) :=
  default [] (buckets set !! hash).

(** [memcmp(s1, s2, n) == 0], comparing byte by byte up to the first
    difference; running off the end of a buffer before that is a
    fault. *)
Fixpoint memcmp (s1 s2 : list ascii) (n : nat) : option bool :=
  match n with
  | O => Some true
  | S n' =>
      match s1, s2 with
      | a :: s1', b :: s2' =>
          if bool_decide (a = b) then memcmp s1' s2' n' else Some false
      | _, _ => None
      end
  end.

(** The test of the two chain walks:
    [memcmp(node->signature, str, len) == 0 && node->signature[len] == '\0']. *)
Definition node_matches (node str : list ascii) (len : Z) : option bool :=
  match memcmp node str (Z.to_nat len) with
  | None => None
  | Some false => Some false
  | Some true =>
      match node !! Z.to_nat len with
      | Some c => Some (bool_decide (c = NUL))
      | None => None
      end
  end.

(** The [while (node != NULL)] walk shared by [hash_set_contains] and
    [hash_set_add]. *)
Fixpoint chain_find (chain : list (list ascii)) (str : list ascii) (len : Z)
  : option bool :=
  match chain with
  | [] => Some false
  | node :: next =>
      match node_matches node str len with
      | None => None
      | Some true => Some true
      | Some false => chain_find next str len
      end
  end.

Definition hash_set_contains (set : HashSet) (str : list ascii) (len : Z)
  : option bool :=
  chain_find (bucket set (hash_string str len)) str len.

Definition hash_set_add (set : HashSet) (str : list ascii) (len : Z)
  : option (bool * HashSet) :=
  let hash := hash_string str len in
  match chain_find (bucket set hash) str len with
  | None => None
  | Some true => Some (false, set)
  | Some false =>
      let new_node := take (Z.to_nat len) str ++ [NUL] in
      Some (true,
            {| buckets := <[hash := new_node :: bucket set hash]> (buckets set);
               hsize := hsize set + 1 |})
  end.

(** ** The frontier *)

Definition add_path (paths : list Path) (row col : Z)
    (signature : list ascii) (sig_len : Z) : list Path :=
  paths ++ [mkPath row col sig_len (take (Z.to_nat sig_len) signature)].

(** [buf[i] = c] on a buffer whose first [i] bytes are meaningful. *)
Definition sig_store (buf : list ascii) (i : Z) (c : ascii) : list ascii :=
  take (Z.to_nat i) buf ++ [c].

(** ** The engine *)

(** What one generation threads through its [for] loop. *)
Record Engine := mkEngine {
  new_paths : list Path;
  final_states : HashSet;
  timeline_count : Z
}.

(** The body of the [for] loop of [part2], for the path [p]. *)
Definition expand (g : Globals) (p : Path) (e : Engine) : option Engine :=
  let next_row := row p + 1 in
  if bool_decide (next_row >= height g) then
    match hash_set_add (final_states e) (signature p) (sig_len p) with
    | None => None
    | Some (true, set) =>
        Some (mkEngine (new_paths e) set (timeline_count e + 1))
    | Some (false, set) =>
        Some (mkEngine (new_paths e) set (timeline_count e))
    end
  else
    let next_cell := grid_at g next_row (col p) in
    if bool_decide (next_cell = "^"%char) then
      let new_len := sig_len p + 1 in
      let new_sig := take (Z.to_nat (sig_len p)) (signature p) in
      let '(new_sig, paths1) :=
        if bool_decide (col p > 0) then
          let s := sig_store new_sig (sig_len p) "L"%char in
          (s, add_path (new_paths e) next_row (col p - 1) s new_len)
        else (new_sig, new_paths e) in
      let paths2 :=
        if bool_decide (col p < width g - 1) then
          let s := sig_store new_sig (sig_len p) "R"%char in
          add_path paths1 next_row (col p + 1) s new_len
        else paths1 in
      Some (mkEngine paths2 (final_states e) (timeline_count e))
    else
      let new_sig := take (Z.to_nat (sig_len p)) (signature p) in
      let new_sig := sig_store new_sig (sig_len p) "D"%char in
      Some (mkEngine
              (add_path (new_paths e) next_row (col p) new_sig (sig_len p + 1))
              (final_states e) (timeline_count e)).

(** The [for] loop over the current frontier. *)
Fixpoint for_paths (g : Globals) (paths : list Path) (e : Engine)
  : option Engine :=
  match paths with
  | [] => Some e
  | p :: rest =>
      match expand g p e with
      | None => None
      | Some e' => for_paths g rest e'
      end
  end.

(** One iteration of the [while] loop: a fresh [new_paths], then the
    [for] loop. *)
Definition generation (g : Globals) (paths : list Path)
    (set : HashSet) (count : Z) : option Engine :=
  for_paths g paths (mkEngine [] set count).

(** *** Termination of the [while] loop

    A path at row [r] can still be advanced fewer than [height - r]
    times; the loop is defined by recursion on the largest such number
    over the frontier. *)

Definition path_fuel (g : Globals) (p : Path) : nat :=
  S (Z.to_nat (height g - row p)).

Definition frontier_fuel (g : Globals) (paths : list Path) : nat :=
  max_list (path_fuel g <$> paths).

Lemma expand_new_paths g p e e' q :
  expand g p e = Some e' → q ∈ new_paths e' →
  q ∈ new_paths e ∨ (row q = row p + 1 ∧ row q < height g).
Proof.
  unfold expand, add_path. intros He Hq.
  case_bool_decide as Hb.
  - destruct (hash_set_add _ _ _) as [[[] ?]|]; simplify_eq/=; auto.
  - repeat case_bool_decide; simplify_eq/=;
      repeat (apply elem_of_app in Hq as [Hq|Hq]);
      try apply list_elem_of_singleton in Hq; subst; simpl; auto with lia.
Qed.

Lemma for_paths_new_paths g paths : ∀ e e' q,
  for_paths g paths e = Some e' → q ∈ new_paths e' →
  q ∈ new_paths e ∨ ∃ p, p ∈ paths ∧ row q = row p + 1 ∧ row q < height g.
Proof.
  induction paths as [|p rest IH]; simpl; intros e e' q He Hq.
  - simplify_eq. auto.
  - destruct (expand g p e) as [e1|] eqn:H1; [|done].
    destruct (IH _ _ _ He Hq) as [Hin|(p' & ? & ?)].
    + destruct (expand_new_paths _ _ _ _ _ H1 Hin) as [?|?]; auto.
      right. exists p. split; [left|done].
    + right. exists p'. split; [by right|done].
Qed.

Lemma generation_fuel g paths set count e :
  paths ≠ [] → generation g paths set count = Some e →
  (frontier_fuel g (new_paths e) < frontier_fuel g paths)%nat.
Proof.
  unfold generation, frontier_fuel. intros Hne He.
  assert (Hpos : (0 < max_list (path_fuel g <$> paths))%nat).
  { destruct paths as [|p ?]; [done|]. simpl. unfold path_fuel at 1. lia. }
  destruct (new_paths e) as [|q0 qs] eqn:Hq; [done|].
  rewrite <- Hq.
  assert (Hin : max_list (path_fuel g <$> new_paths e)
                ∈ path_fuel g <$> new_paths e).
  { apply max_list_elem_of. by rewrite Hq. }
  apply list_elem_of_fmap in Hin as (q & -> & Hin).
  destruct (for_paths_new_paths _ _ _ _ _ He Hin) as [Hnil|(p & Hp & Hr & Hh)].
  { simpl in Hnil. by apply elem_of_nil in Hnil. }
  assert (path_fuel g p ≤ max_list (path_fuel g <$> paths))%nat.
  { apply max_list_elem_of_le, list_elem_of_fmap. eauto. }
  unfold path_fuel in *. lia.
Qed.

(** The [while (paths->size > 0)] loop; it returns the counter and the
    set as they are when the frontier is empty. *)
Equations? part2_loop (g : Globals) (paths : list Path)
    (set : HashSet) (count : Z) : option (Z * HashSet)
    by wf (frontier_fuel g paths) lt :=
  part2_loop g [] set count := Some (count, set);
  part2_loop g (p :: rest) set count
    with Equations.Prop.Logic.inspect (generation g (p :: rest) set count) := {
    | exist _ None _ => None
    | exist _ (Some e) He =>
        part2_loop g (new_paths e) (final_states e) (timeline_count e) }.
Proof. by eapply generation_fuel. Qed.

(** [part2], together with the set [final_states] as it is just before
    it is freed. *)
Definition part2_run (g : Globals) (start_col : Z) : option (Z * HashSet) :=
  let paths := add_path [] 0 start_col [] 0 in
  part2_loop g paths create_hash_set 0.

Definition part2 (g : Globals) (start_col : Z) : option Z :=
  fst <$> part2_run g start_col.

(** ** [main]: reading the grid *)

(** The line feed that ends a line. *)
Definition LF : ascii := "010"%char.

(** The string a buffer holds, as [strlen] and [memcpy] see it: its
    bytes before the first [NUL]. *)
Fixpoint c_string (buf : list ascii) : list ascii :=
  match buf with
  | [] => []
  | c :: rest => if bool_decide (c = NUL) then [] else c :: c_string rest
  end.

(** The body of the [while (fgets(...))] loop, for the bytes [fgets] has
    stored in [line] before its terminator: at least one, and fewer than
    the [MAX_GRID_SIZE] bytes of the buffer (an entry without any byte
    stands for no line at all and is passed over; one that the buffer
    cannot hold is a fault).  [len] is the length of the string.  With
    [len = 0] the test of [line[len - 1]] reads before the buffer, a
    fault.  Otherwise the final line feed is cut off, an empty line is
    skipped, and any other line is copied to row [height] of the grid,
    a fault when that row is outside the array; the first row sets
    [width]. *)
Definition read_line (line : list ascii) (g : Globals) : option Globals :=
  match line with
  | [] => Some g
  | _ =>
      if bool_decide (MAX_GRID_SIZE <= Z.of_nat (length line)) then None
      else
        let str := c_string line in
        let len := Z.of_nat (length str) in
        if bool_decide (len = 0) then None
        else
          let '(str, len) :=
            if bool_decide (last str = Some LF)
            then (removelast str, len - 1) else (str, len) in
          if bool_decide (len = 0) then Some g
          else if bool_decide (0 <= height g < MAX_GRID_SIZE) then
            Some {| grid := grid g ++ [str];
                    height := height g + 1;
                    width := if bool_decide (width g = 0) then len
                             else width g |}
          else None
  end.

(** The [while (fgets(...))] loop, over the lines [fgets] hands out one
    after the other. *)
Fixpoint read_lines (lines : list (list ascii)) (g : Globals)
  : option Globals :=
  match lines with
  | [] => Some g
  | line :: rest => read_line line g ≫= read_lines rest
  end.

(** The globals start out as an empty grid, [height = 0], [width = 0]. *)
Definition read_grid (lines : list (list ascii)) : option Globals :=
  read_lines lines (mkGlobals [] 0 0).

(** ** [main]: the start column *)

(** The [for (col = 0; col < width; col++)] scan of row 0, with [n]
    columns left to visit. *)
Fixpoint scan_start (g : Globals) (n : nat) (col : Z) : Z :=
  match n with
  | O => 0
  | S n' =>
      if bool_decide (grid_at g 0 col = "S"%char) then col
      else scan_start g n' (col + 1)
  end.

Definition find_start_col (g : Globals) : Z :=
  scan_start g (Z.to_nat (width g)) 0.

(** [main] once the grid is loaded: the scan, then the call of [part2]. *)
Definition main_result (g : Globals) : option Z :=
  let start_col := find_start_col g in
  part2 g start_col.

(** [main] on the lines of the input: what it prints after [Part 2:]. *)
Definition main (lines : list (list ascii)) : option Z :=
  read_grid lines ≫= main_result.

(** ** Sample grids *)

(** A start over a dot, next to a deflector on the left edge. *)
Definition grid_edge : Globals :=
  mkGlobals [ ["S"; "."]; ["^"; "."] ]%char 2 2.

(** A start right above a deflector with room on both sides. *)
Definition grid_split : Globals :=
  mkGlobals [ ["."; "S"; "."]; ["."; "^"; "."] ]%char 2 3.

(** A single row. *)
Definition grid_row : Globals :=
  mkGlobals [ ["."; "."; "S"; "."] ]%char 1 4.

(** One column, with a deflector under the start: nowhere to go. *)
Definition grid_narrow : Globals :=
  mkGlobals [ ["S"]; ["^"]; ["."] ]%char 3 1.

(** * Vocabulary of the properties *)

(** ** Signatures and well-formed sets *)

(** The signature alphabet. *)
Definition move (c : ascii) : Prop :=
  c = "L"%char ∨ c = "R"%char ∨ c = "D"%char.

Definition sig_ok (s : list ascii) : Prop := Forall move s.

(** The length of a signature, as the [int] the code passes along. *)
Definition len (s : list ascii) : Z := Z.of_nat (length s).

(** A signature byte-for-byte equal to [s] is held by some node of the
    set: the node's buffer is [s] followed by the terminator. *)
Definition stored (set : HashSet) (s : list ascii) : Prop :=
  ∃ hash, s ++ [NUL] ∈ bucket set hash.

(** The states a set can be in: every node holds a terminated string
    without an inner [NUL], chained in the bucket of its hash. *)
Definition wf_set (set : HashSet) : Prop :=
  ∀ hash node, node ∈ bucket set hash →
    ∃ t, node = t ++ [NUL] ∧ (NUL ∉ t) ∧ hash_string t (len t) = hash.

(** [set] holds exactly the signatures of the duplicate-free list [l],
    and its [size] field counts them. *)
Definition represents (set : HashSet) (l : list (list ascii)) : Prop :=
  wf_set set ∧ NoDup l ∧ (∀ s, stored set s ↔ s ∈ l) ∧ hsize set = Z.of_nat (length l).

(** The shape [main] leaves the globals in: [height] rows, and a
    positive [width] as soon as there is a row. *)
Definition loaded (g : Globals) : Prop :=
  height g = Z.of_nat (length (grid g))
  ∧ 0 <= width g ∧ (0 < width g ↔ 0 < height g).

(** The grid fits the array [grid[MAX_GRID_SIZE][MAX_GRID_SIZE]], each
    row with its terminator. *)
Definition in_array (g : Globals) : Prop :=
  0 <= height g <= MAX_GRID_SIZE ∧ 0 <= width g < MAX_GRID_SIZE.

(** A line as [fgets] hands it out from a text without [NUL] bytes. *)
Definition text_line (line : list ascii) : Prop :=
  (NUL ∉ line) ∧ Z.of_nat (length line) < MAX_GRID_SIZE.

(** ** The loop, generation by generation *)

(** The engine between two generations, when [new_paths] has just become
    the current [paths].  One turn of the [while] loop: *)
Definition while_step (g : Globals) (e : Engine) : option Engine :=
  match new_paths e with
  | [] => Some e
  | paths => generation g paths (final_states e) (timeline_count e)
  end.

(** The first [n] turns of the loop. *)
Fixpoint while_steps (g : Globals) (n : nat) (e : Engine) : option Engine :=
  match n with
  | O => Some e
  | S n' => while_steps g n' e ≫= while_step g
  end.

(** The engine at the start of [part2], and after [n] turns. *)
Definition part2_init (start_col : Z) : Engine :=
  mkEngine (add_path [] 0 start_col [] 0) create_hash_set 0.

Definition generations (g : Globals) (start_col : Z) (n : nat)
  : option Engine :=
  while_steps g n (part2_init start_col).

(** The frontier after [n] turns. *)
Definition frontier (g : Globals) (start_col : Z) (n : nat) : list Path :=
  from_option new_paths [] (generations g start_col n).

(** The successors a path in the grid's interior emits. *)
Definition emitted (g : Globals) (p : Path) : list Path :=
  from_option new_paths [] (expand g p (mkEngine [] create_hash_set 0)).

(** A path leaves the grid: it is in some frontier, on the last row. *)
Definition exits (g : Globals) (start_col : Z) (p : Path) : Prop :=
  ∃ n, p ∈ frontier g start_col n ∧ row p + 1 >= height g.

(** A signature is in the set when [part2] returns. *)
Definition recorded (g : Globals) (start_col : Z) (s : list ascii) : Prop :=
  ∃ count set, part2_run g start_col = Some (count, set) ∧ stored set s.

(** What holds of a path of the [k]-th frontier. *)
Definition path_inv (k : Z) (p : Path) : Prop :=
  row p = k ∧ sig_len p = k ∧ len (signature p) = k ∧ sig_ok (signature p).

Definition in_grid (g : Globals) (p : Path) : Prop :=
  0 <= row p < height g ∧ 0 <= col p < width g.

(** The loop, entered with the engine [e]. *)
Definition loop_from (g : Globals) (e : Engine) : option (Z * HashSet) :=
  part2_loop g (new_paths e) (final_states e) (timeline_count e).

(** The successor of [p] one row down, [dc] columns to the right, with
    the move [c] appended to the signature. *)
Definition successor (p : Path) (dc : Z) (c : ascii) : Path :=
  mkPath (row p + 1) (col p + dc) (sig_len p + 1) (signature p ++ [c]).

(** The number of generations that emit successors: the frontier that
    leaves the grid is the one after [last_gen] turns. *)
Definition last_gen (g : Globals) : nat := Z.to_nat (height g - 1).

(** ** The rules of the specification *)

(** From the words of the specification, not from the code: the grid is
    queried by [cell(row, col)] on the rows as they were loaded. *)
Definition spec_cell (g : Globals) (r c : Z) : option ascii :=
  if bool_decide (0 <= r ∧ 0 <= c)
  then grid g !! Z.to_nat r ≫= λ line, line !! Z.to_nat c
  else None.

(** From the words of the specification (the generation step of the
    simulation engine): the positions and signatures a path can have.
    It starts at [(0, start_col)] with the empty signature; while the
    next row is inside the grid, a deflector below sends it left with an
    L when [col > 0] and right with an R when [col < width - 1], and any
    other cell below lets it advance straight with a D. *)
Inductive spec_path (g : Globals) (start_col : Z)
  : Z → Z → list ascii → Prop :=
  | sp_start : spec_path g start_col 0 start_col []
  | sp_left r c s :
      spec_path g start_col r c s → r + 1 < height g →
      spec_cell g (r + 1) c = Some "^"%char → c > 0 →
      spec_path g start_col (r + 1) (c - 1) (s ++ ["L"%char])
  | sp_right r c s :
      spec_path g start_col r c s → r + 1 < height g →
      spec_cell g (r + 1) c = Some "^"%char → c < width g - 1 →
      spec_path g start_col (r + 1) (c + 1) (s ++ ["R"%char])
  | sp_down r c s :
      spec_path g start_col r c s → r + 1 < height g →
      spec_cell g (r + 1) c ≠ Some "^"%char →
      spec_path g start_col (r + 1) c (s ++ ["D"%char]).

(** The signature [s] belongs to a path that has left the grid: its
    next row is [height] or beyond. *)
Definition spec_exit (g : Globals) (start_col : Z) (s : list ascii) : Prop :=
  ∃ r c, spec_path g start_col r c s ∧ r + 1 >= height g.

(** ** Further samples *)

(** A set that holds the one signature LRD. *)
Definition set_LRD : HashSet :=
  match hash_set_add create_hash_set ["L"; "R"; "D"]%char 3 with
  | Some (_, set) => set
  | None => create_hash_set
  end.

(** A row without a start marker. *)
Definition grid_unmarked : Globals :=
  mkGlobals [ ["."; "^"]; ["."; "."] ]%char 2 2.

(** ** The frontier with its storage *)

(** A [PathList] with the bookkeeping of its block: [data] holds the
    [psize] paths stored so far ([psize] is the field [size]), and the
    block has room for [capacity] paths. *)
Record PathList := mkPathList {
  data : list Path;
  psize : Z;
  capacity : Z
}.

Definition create_path_list (initial_capacity : Z) : PathList :=
  {| data := []; psize := 0; capacity := initial_capacity |}.

(** [add_path] on the whole structure: the capacity is doubled when the
    list is full, then the path is written at index [size].  A write
    outside the block is a fault. *)
Definition add_path_list (l : PathList) (row col : Z)
    (signature : list ascii) (sig_len : Z) : option PathList :=
  let capacity :=
    if bool_decide (psize l >= capacity l) then capacity l * 2
    else capacity l in
  if bool_decide (0 <= psize l < capacity) then
    Some {| data := add_path (data l) row col signature sig_len;
            psize := psize l + 1;
            capacity := capacity |}
  else None.

(** The lists a run of the program can hold: one made by
    [create_path_list c], then filled by calls of [add_path]. *)
Inductive built (c : Z) : PathList → Prop :=
  | built_create : built c (create_path_list c)
  | built_add l l' row col signature sig_len :
      built c l →
      add_path_list l row col signature sig_len = Some l' →
      built c l'.

(** ** Further vocabulary *)

(** The columns a signature moves a path by: one to the left for L, one
    to the right for R. *)
Definition drift (s : list ascii) : Z :=
  foldr (λ c d,
           (if bool_decide (c = "L"%char) then -1
            else if bool_decide (c = "R"%char) then 1 else 0) + d) 0 s.

(** A line without the line feed [fgets] may leave at its end. *)
Definition strip_lf (line : list ascii) : list ascii :=
  if bool_decide (last line = Some LF) then removelast line else line.

(** The rows of an input: its lines without their line feed, the empty
    ones left out. *)
Definition rows_of (lines : list (list ascii)) : list (list ascii) :=
  filter (λ r, r ≠ []) (strip_lf <$> lines).

(** A key with a [NUL] inside, and the prefix that stops there. *)
Definition key_inner_nul : list ascii :=
  ["L"; "000"; "R"; "R"; "R"; "R"; "R"; "D"; "R"; "R"; "L"; "R"]%char.

(** * Lemmas *)

Lemma sig_ok_nul s : sig_ok s → NUL ∉ s.
Proof.
  intros Hs Hin. eapply Forall_forall in Hs; [|exact Hin].
  by destruct Hs as [?|[?|?]].
Qed.

Lemma sig_ok_snoc s c : sig_ok s → move c → sig_ok (s ++ [c]).
Proof. intros. apply Forall_app. split; [done|]. by constructor. Qed.

Section hash_set.
Implicit Types (set : HashSet) (s t str node : list ascii).

Lemma take_len s : take (Z.to_nat (len s)) s = s.
Proof. unfold len. rewrite Nat2Z.id. apply firstn_all. Qed.

Lemma node_matches_spec t s :
  NUL ∉ t → NUL ∉ s →
  node_matches (t ++ [NUL]) s (len s) = Some (bool_decide (t = s)).
Proof.
  unfold node_matches, len. rewrite Nat2Z.id. revert t.
  induction s as [|b s IH]; intros t Ht Hs.
  - destruct t as [|a t]; simpl; [done|].
    rewrite bool_decide_eq_false_2; [done|].
    intros ->. apply Ht. by left.
  - destruct t as [|a t]; simpl.
    + case_bool_decide as Hb; [|done].
      subst b. destruct Hs. by left.
    + apply not_elem_of_cons in Ht as [? Ht].
      apply not_elem_of_cons in Hs as [? Hs].
      case_bool_decide as Hab.
      * subst b. rewrite (IH t Ht Hs).
        apply f_equal, bool_decide_ext. split; congruence.
      * rewrite bool_decide_eq_false_2; [done|congruence].
Qed.

Lemma chain_find_spec chain s :
  (∀ node, node ∈ chain → ∃ t, node = t ++ [NUL] ∧ NUL ∉ t) →
  NUL ∉ s →
  chain_find chain s (len s) = Some (bool_decide (s ++ [NUL] ∈ chain)).
Proof.
  intros Hwf Hs. induction chain as [|node next IH]; simpl; [done|].
  destruct (Hwf node) as (t & -> & Ht); [by left|].
  rewrite node_matches_spec by done.
  destruct (decide (t = s)) as [->|Hne].
  - rewrite (bool_decide_eq_true_2 (s = s)) by done.
    rewrite bool_decide_eq_true_2; [done|by left].
  - rewrite (bool_decide_eq_false_2 (t = s)) by done.
    rewrite IH by (intros; apply Hwf; by right).
    apply f_equal, bool_decide_ext. rewrite elem_of_cons.
    split; [tauto|]. intros [Hts|?]; [|done].
    apply app_inj_tail in Hts as [-> _]. done.
Qed.

Lemma wf_set_chain set hash :
  wf_set set →
  ∀ node, node ∈ bucket set hash → ∃ t, node = t ++ [NUL] ∧ NUL ∉ t.
Proof. intros Hwf node Hin. destruct (Hwf _ _ Hin) as (t & ? & ? & ?). eauto. Qed.

(** Under [wf_set] a signature can only sit in the bucket of its own
    hash. *)
Lemma stored_own_bucket set s :
  wf_set set →
  stored set s ↔ s ++ [NUL] ∈ bucket set (hash_string s (len s)).
Proof.
  intros Hwf. split; [|intros ?; by eexists].
  intros [hash Hin]. destruct (Hwf _ _ Hin) as (t & Heq & _ & Hh).
  apply app_inj_tail in Heq as [-> _]. by rewrite Hh.
Qed.

Lemma wf_create : wf_set create_hash_set.
Proof.
  intros hash node. unfold bucket, create_hash_set; simpl.
  rewrite lookup_empty. simpl. by intros ?%elem_of_nil.
Qed.

Lemma stored_create s : ¬ stored create_hash_set s.
Proof.
  intros [hash Hin]. unfold bucket, create_hash_set in Hin; simpl in Hin.
  rewrite lookup_empty in Hin. by apply elem_of_nil in Hin.
Qed.

Lemma hash_set_contains_spec set s :
  wf_set set → NUL ∉ s →
  hash_set_contains set s (len s)
  = Some (bool_decide (s ++ [NUL] ∈ bucket set (hash_string s (len s)))).
Proof.
  intros Hwf Hs. unfold hash_set_contains.
  apply chain_find_spec; [by apply wf_set_chain|done].
Qed.

Lemma bucket_insert set hash chain n hash' :
  bucket {| buckets := <[hash := chain]> (buckets set); hsize := n |} hash'
  = if decide (hash = hash') then chain else bucket set hash'.
Proof.
  unfold bucket; simpl. rewrite lookup_insert.
  by destruct (decide (hash = hash')).
Qed.

Lemma hash_set_add_present set s :
  wf_set set → NUL ∉ s → stored set s →
  hash_set_add set s (len s) = Some (false, set).
Proof.
  intros Hwf Hs Hst. unfold hash_set_add.
  rewrite chain_find_spec; [|by apply wf_set_chain|done].
  rewrite bool_decide_eq_true_2; [done|]. by apply stored_own_bucket.
Qed.

Lemma hash_set_add_absent set s :
  wf_set set → NUL ∉ s → ¬ stored set s →
  ∃ set', hash_set_add set s (len s) = Some (true, set')
    ∧ wf_set set'
    ∧ (∀ t, stored set' t ↔ t = s ∨ stored set t)
    ∧ hsize set' = hsize set + 1.
Proof.
  intros Hwf Hs Hst. unfold hash_set_add.
  rewrite chain_find_spec; [|by apply wf_set_chain|done].
  rewrite bool_decide_eq_false_2; [|intros ?; apply Hst; by eexists].
  eexists. split; [done|]. rewrite take_len. split; [|split; [|done]].
  - intros hash node. rewrite bucket_insert.
    destruct (decide _) as [<-|]; [|by apply Hwf].
    intros [->|Hin]%elem_of_cons; [by eauto|by apply Hwf].
  - intros t. split.
    + intros [hash Hin]. rewrite bucket_insert in Hin.
      destruct (decide _) as [<-|]; [|right; by eexists].
      apply elem_of_cons in Hin as [Heq|Hin]; [|right; by eexists].
      left. by apply app_inj_tail in Heq as [-> _].
    + intros [->|[hash Hin]].
      * exists (hash_string s (len s)). rewrite bucket_insert.
        rewrite decide_True by done. by left.
      * exists hash. rewrite bucket_insert.
        destruct (decide _) as [<-|]; [by right|done].
Qed.

Lemma represents_create : represents create_hash_set [].
Proof.
  split; [apply wf_create|]. split; [constructor|]. split; [|done].
  intros s. split; [by intros ?%stored_create|by intros ?%elem_of_nil].
Qed.

(** [hash_set_add] against the represented list. *)
Lemma hash_set_add_represents set l s :
  represents set l → NUL ∉ s →
  ∃ set', hash_set_add set s (len s) = Some (bool_decide (s ∉ l), set')
    ∧ represents set' (if decide (s ∈ l) then l else s :: l).
Proof.
  intros (Hwf & Hnd & Hl & Hsz) Hs. destruct (decide (s ∈ l)) as [Hin|Hin].
  - exists set. rewrite hash_set_add_present by (done || by apply Hl).
    rewrite bool_decide_eq_false_2 by tauto. done.
  - destruct (hash_set_add_absent set s) as (set' & -> & Hwf' & Hst & Hsz');
      [done|done|by rewrite Hl|].
    exists set'. rewrite bool_decide_eq_true_2 by done.
    split; [done|]. split; [done|]. split; [by constructor|].
    split.
    + intros t. rewrite Hst, elem_of_cons, Hl. done.
    + rewrite Hsz', Hsz. simpl. lia.
Qed.
End hash_set.

(** ** The grid [main] reads *)

Lemma c_string_length (buf : list ascii) :
  (length (c_string buf) ≤ length buf)%nat.
Proof.
  induction buf as [|c buf IH]; simpl; [done|].
  case_bool_decide; simpl; lia.
Qed.

Lemma c_string_text (buf : list ascii) : NUL ∉ buf → c_string buf = buf.
Proof.
  induction buf as [|c buf IH]; intros Hn; simpl; [done|].
  apply not_elem_of_cons in Hn as [Hc Hn].
  rewrite bool_decide_eq_false_2 by done. by rewrite IH.
Qed.

Lemma removelast_length_LF (l : list ascii) :
  last l = Some LF →
  Z.of_nat (length (removelast l)) = Z.of_nat (length l) - 1.
Proof.
  intros Hl. destruct l as [|a l] using rev_ind; [done|].
  rewrite removelast_last, length_app. simpl. lia.
Qed.

Lemma read_line_shape line g g' :
  loaded g → in_array g → read_line line g = Some g' →
  loaded g' ∧ in_array g'.
Proof.
  intros Hl Ha Hr. assert (Hg : loaded g ∧ in_array g) by done.
  destruct Hl as (Hh & Hw & Hwh). destruct Ha as (Hha & Hwa).
  unfold read_line in Hr. destruct line as [|a l]; [by simplify_eq|].
  remember (a :: l) as line eqn:Hline. clear Hline.
  pose proof (c_string_length line) as Hcs.
  remember (c_string line) as str eqn:Hstr. clear Hstr.
  case_bool_decide as Hbuf; [done|].
  case_bool_decide as Hz; [done|].
  unfold MAX_GRID_SIZE in *.
  destruct (bool_decide (last str = Some LF)) eqn:Hlf.
  - apply bool_decide_eq_true in Hlf.
    pose proof (removelast_length_LF _ Hlf) as Hlen.
    case_bool_decide as Hz'; [by simplify_eq|].
    case_bool_decide as Hrow; [|done]. simplify_eq.
    unfold loaded, in_array, MAX_GRID_SIZE; simpl. rewrite length_app; simpl.
    case_bool_decide; lia.
  - clear Hlf. case_bool_decide as Hz'; [by simplify_eq|].
    case_bool_decide as Hrow; [|done]. simplify_eq.
    unfold loaded, in_array, MAX_GRID_SIZE; simpl. rewrite length_app; simpl.
    case_bool_decide; lia.
Qed.

Lemma read_lines_shape lines : ∀ g g',
  loaded g → in_array g → read_lines lines g = Some g' →
  loaded g' ∧ in_array g'.
Proof.
  induction lines as [|line rest IH]; intros g g' Hl Ha Hr; simpl in Hr.
  - by simplify_eq.
  - destruct (read_line line g) as [g1|] eqn:H1; [|done]. simpl in Hr.
    destruct (read_line_shape _ _ _ Hl Ha H1). by eapply IH.
Qed.

(** Whatever the input, when [main] calls [part2] the globals have that
    shape: a start column below [width] implies a positive [height], and
    the grid fits its array. *)
Lemma read_grid_loaded lines g :
  read_grid lines = Some g → loaded g ∧ in_array g.
Proof.
  apply read_lines_shape; unfold loaded, in_array, MAX_GRID_SIZE; simpl; lia.
Qed.

(** ** The loop and its turns *)

Section loop.
Context (g : Globals).

Lemma part2_loop_eq paths set count :
  part2_loop g paths set count =
  match paths with
  | [] => Some (count, set)
  | _ =>
      match generation g paths set count with
      | None => None
      | Some e =>
          part2_loop g (new_paths e) (final_states e) (timeline_count e)
      end
  end.
Proof.
  destruct paths as [|p rest]; simp part2_loop; [done|].
  generalize (Equations.Prop.Logic.inspect (generation g (p :: rest) set count)).
  intros [[e|] He]; simp part2_loop; by rewrite He.
Qed.

Lemma loop_from_step e : loop_from g e = while_step g e ≫= loop_from g.
Proof.
  unfold loop_from at 1, while_step. rewrite part2_loop_eq.
  destruct (new_paths e) as [|p rest] eqn:Hp; simpl.
  - unfold loop_from. rewrite Hp. by rewrite part2_loop_eq.
  - by destruct (generation _ _ _ _).
Qed.

Lemma loop_from_steps n e :
  loop_from g e = while_steps g n e ≫= loop_from g.
Proof.
  induction n as [|n IH]; simpl; [done|].
  rewrite IH. destruct (while_steps g n e) as [e'|]; simpl; [|done].
  apply loop_from_step.
Qed.

(** Once the frontier is empty the loop is over. *)
Lemma loop_from_done n e e' :
  while_steps g n e = Some e' → new_paths e' = [] →
  loop_from g e = Some (timeline_count e', final_states e').
Proof.
  intros Hn Hnil. rewrite (loop_from_steps n), Hn. simpl.
  unfold loop_from. rewrite Hnil. by rewrite part2_loop_eq.
Qed.
End loop.

(** ** One path *)

Section expand.
Context (g : Globals).
Implicit Types (p q : Path) (e : Engine).

Lemma take_snoc (s : list ascii) (c : ascii) :
  take (Z.to_nat (len s + 1)) (s ++ [c]) = s ++ [c].
Proof.
  unfold len. apply take_ge. rewrite length_app. simpl. lia.
Qed.

Lemma sig_store_end (s : list ascii) (c : ascii) :
  sig_store s (len s) c = s ++ [c].
Proof. unfold sig_store. by rewrite take_len. Qed.

Lemma sig_store_over (s : list ascii) (c c' : ascii) :
  sig_store (s ++ [c]) (len s) c' = s ++ [c'].
Proof.
  unfold sig_store, len. rewrite Nat2Z.id. by rewrite take_app_length.
Qed.

(** Below the last row, [expand] touches neither the set nor the
    counter, and appends what [p] emits. *)
Lemma expand_inner p e :
  row p + 1 < height g →
  expand g p e
  = Some (mkEngine (new_paths e ++ emitted g p)
            (final_states e) (timeline_count e)).
Proof.
  intros Hr. unfold emitted, expand, add_path.
  rewrite !(bool_decide_eq_false_2 (row p + 1 >= height g)) by lia.
  repeat case_bool_decide; simpl; rewrite <- ?app_assoc, ?app_nil_r; done.
Qed.

Lemma emitted_exit p : row p + 1 >= height g → emitted g p = [].
Proof.
  intros Hr. unfold emitted, expand.
  rewrite bool_decide_eq_true_2 by done.
  by destruct (hash_set_add _ _ _) as [[[] ?]|].
Qed.

Lemma emitted_deflector p :
  row p + 1 < height g → sig_len p = len (signature p) →
  grid_at g (row p + 1) (col p) = "^"%char →
  emitted g p
  = (if bool_decide (col p > 0) then [successor p (-1) "L"] else [])
    ++ (if bool_decide (col p < width g - 1)
        then [successor p 1 "R"] else []).
Proof.
  intros Hr Hl Hc. unfold emitted, expand, add_path, successor.
  rewrite bool_decide_eq_false_2 by lia.
  rewrite bool_decide_eq_true_2 by done.
  rewrite !Hl, take_len.
  repeat case_bool_decide; simpl;
    by rewrite ?sig_store_end, ?sig_store_over, ?take_snoc.
Qed.

Lemma emitted_pass p :
  row p + 1 < height g → sig_len p = len (signature p) →
  grid_at g (row p + 1) (col p) ≠ "^"%char →
  emitted g p = [successor p 0 "D"].
Proof.
  intros Hr Hl Hc. unfold emitted, expand, add_path, successor.
  rewrite bool_decide_eq_false_2 by lia.
  rewrite bool_decide_eq_false_2 by done.
  simpl. rewrite !Hl, take_len, sig_store_end, take_snoc.
  by rewrite Z.add_0_r.
Qed.

(** Every emitted path is a successor by one of the three moves, and
    stays inside the columns of the grid. *)
Lemma emitted_successor p q :
  sig_len p = len (signature p) → q ∈ emitted g p →
  row p + 1 < height g ∧
  (q = successor p (-1) "L" ∧ col p > 0
   ∨ q = successor p 1 "R" ∧ col p < width g - 1
   ∨ q = successor p 0 "D").
Proof.
  intros Hl Hq.
  destruct (decide (row p + 1 < height g)) as [Hr|Hr];
    [|rewrite emitted_exit in Hq by lia; by apply elem_of_nil in Hq].
  split; [done|].
  destruct (decide (grid_at g (row p + 1) (col p) = "^"%char)) as [Hc|Hc].
  - rewrite emitted_deflector in Hq by done.
    apply elem_of_app in Hq as [Hq|Hq]; case_bool_decide;
      try (by apply elem_of_nil in Hq);
      apply list_elem_of_singleton in Hq; auto.
  - rewrite emitted_pass in Hq by done.
    apply list_elem_of_singleton in Hq; auto.
Qed.

Lemma emitted_inv k p q :
  path_inv k p → q ∈ emitted g p → path_inv (k + 1) q.
Proof.
  intros (Hr & Hl & Hs & Hok) Hq.
  apply emitted_successor in Hq as [_ Hq]; [|congruence].
  assert (∀ dc c, move c → path_inv (k + 1) (successor p dc c)) as Hsucc.
  { intros dc c Hc. unfold path_inv, successor, len; simpl.
    rewrite length_app; simpl. unfold len in Hs.
    repeat split; try lia. by apply sig_ok_snoc. }
  unfold move in Hsucc.
  destruct Hq as [[-> _]|[[-> _]| ->]]; apply Hsucc; auto.
Qed.

Lemma emitted_in_grid k p q :
  path_inv k p → in_grid g p → q ∈ emitted g p → in_grid g q.
Proof.
  intros (Hr & Hl & Hs & Hok) [Hrow Hcol] Hq.
  apply emitted_successor in Hq as [? Hq]; [|congruence].
  unfold in_grid.
  destruct Hq as [[-> ?]|[[-> ?]| ->]]; simpl; lia.
Qed.
End expand.

(** ** One generation *)

Section generation.
Context (g : Globals).
Implicit Types (p q : Path) (e : Engine) (l : list (list ascii)).

(** On the last row, [expand] hands the signature to the set and counts
    it when it is new. *)
Lemma expand_exit p e l :
  row p + 1 >= height g → sig_len p = len (signature p) →
  NUL ∉ signature p →
  represents (final_states e) l → timeline_count e = Z.of_nat (length l) →
  ∃ e', expand g p e = Some e' ∧ new_paths e' = new_paths e
    ∧ represents (final_states e')
        (if decide (signature p ∈ l) then l else signature p :: l)
    ∧ timeline_count e'
      = Z.of_nat (length (if decide (signature p ∈ l)
                          then l else signature p :: l)).
Proof.
  intros Hr Hl Hs Hrep Hc. unfold expand.
  rewrite bool_decide_eq_true_2 by done. rewrite Hl.
  destruct (hash_set_add_represents _ _ _ Hrep Hs) as (set' & -> & Hrep').
  destruct (decide (signature p ∈ l)) as [Hin|Hin].
  - rewrite bool_decide_eq_false_2 by tauto. eexists.
    split; [done|]. split; [done|]. by split.
  - rewrite bool_decide_eq_true_2 by done. eexists.
    split; [done|]. split; [done|]. split; [done|]. simpl. lia.
Qed.

Lemma for_paths_exit paths : ∀ e l,
  (∀ p, p ∈ paths →
     row p + 1 >= height g ∧ sig_len p = len (signature p)
     ∧ NUL ∉ signature p) →
  represents (final_states e) l → timeline_count e = Z.of_nat (length l) →
  ∃ e' l', for_paths g paths e = Some e' ∧ new_paths e' = new_paths e
    ∧ represents (final_states e') l'
    ∧ timeline_count e' = Z.of_nat (length l')
    ∧ ∀ s, s ∈ l' ↔ s ∈ l ∨ ∃ p, p ∈ paths ∧ signature p = s.
Proof.
  induction paths as [|p rest IH]; intros e l Hp Hrep Hc; simpl.
  - exists e, l. do 4 (split; [done|]). intros s. split; [by left|].
    intros [?|(p & ?%elem_of_nil & _)]; done.
  - destruct (Hp p) as (Hr & Hl & Hs); [by left|].
    destruct (expand_exit p e l Hr Hl Hs Hrep Hc)
      as (e1 & -> & Hn1 & Hrep1 & Hc1).
    destruct (IH e1 (if decide (signature p ∈ l) then l else signature p :: l))
      as (e' & l' & -> & Hn' & Hrep' & Hc' & Hl');
      [intros; apply Hp; by right|done|done|].
    exists e', l'. split; [done|]. split; [congruence|].
    do 2 (split; [done|]). intros s. split.
    + intros [Hin|(q & Hq & <-)]%Hl'.
      * destruct (decide _); [by left|].
        apply elem_of_cons in Hin as [->|?]; [|by left].
        right. exists p. split; [by left|done].
      * right. exists q. split; [by right|done].
    + intros [Hin|(q & Hq & <-)]; apply Hl'.
      * left. destruct (decide _); [done|by right].
      * apply elem_of_cons in Hq as [->|Hq].
        -- left. destruct (decide _); [done|by left].
        -- right. by exists q.
Qed.

Lemma for_paths_inner paths : ∀ e,
  (∀ p, p ∈ paths → row p + 1 < height g) →
  for_paths g paths e
  = Some (mkEngine (new_paths e ++ (paths ≫= emitted g))
            (final_states e) (timeline_count e)).
Proof.
  induction paths as [|p rest IH]; intros e Hp; simpl.
  - rewrite app_nil_r. by destruct e.
  - rewrite expand_inner by (apply Hp; by left).
    rewrite IH by (intros; apply Hp; by right).
    simpl. by rewrite app_assoc.
Qed.
End generation.

(** ** The run of [part2] *)

Section run.
Context (g : Globals) (start_col : Z).
Implicit Types (p q : Path) (e : Engine) (n : nat).

Lemma generations_S n :
  generations g start_col (S n) = generations g start_col n ≫= while_step g.
Proof. done. Qed.

Lemma path_inv_start : path_inv 0 (mkPath 0 start_col 0 []).
Proof. repeat split. constructor. Qed.

(** Before the last row is reached the set stays empty and the counter
    at 0, and the frontier is that of row [n]. *)
Lemma generations_inner n :
  n = 0%nat ∨ Z.of_nat n < height g →
  ∃ paths, generations g start_col n = Some (mkEngine paths create_hash_set 0)
    ∧ Forall (path_inv (Z.of_nat n)) paths
    ∧ (in_grid g (mkPath 0 start_col 0 []) → Forall (in_grid g) paths).
Proof.
  induction n as [|n IH]; intros Hn.
  - exists [mkPath 0 start_col 0 []]. split; [done|].
    split; [|intros ?]; (constructor; [|constructor]); [|done].
    apply path_inv_start.
  - destruct IH as (paths & Hg & Hinv & Hgrid); [lia|].
    rewrite generations_S, Hg. simpl. unfold while_step. simpl.
    destruct paths as [|p rest] eqn:Hp.
    { exists []. split; [done|]. split; [|intros ?]; constructor. }
    rewrite <- Hp in *. unfold generation. rewrite for_paths_inner.
    2:{ intros q Hq. eapply Forall_forall in Hinv as (-> & _); [|exact Hq]. lia. }
    simpl. eexists. split; [done|].
    split; [|intros Hs; specialize (Hgrid Hs)];
      apply Forall_forall; intros q (q' & Hq & Hq')%list_elem_of_bind.
    + replace (Z.of_nat (S n)) with (Z.of_nat n + 1) by lia.
      eapply emitted_inv; [|exact Hq].
      eapply Forall_forall in Hinv; [exact Hinv|done].
    + eapply emitted_in_grid; [| |exact Hq].
      * eapply Forall_forall in Hinv; [exact Hinv|done].
      * eapply Forall_forall in Hgrid; [exact Hgrid|done].
Qed.

Lemma last_gen_inner : last_gen g = 0%nat ∨ Z.of_nat (last_gen g) < height g.
Proof. unfold last_gen. lia. Qed.

Lemma last_gen_exit : Z.of_nat (last_gen g) + 1 >= height g.
Proof. unfold last_gen. lia. Qed.

(** The turn that follows empties the frontier into the set. *)
Lemma generations_exit :
  ∃ paths set l,
    generations g start_col (last_gen g)
    = Some (mkEngine paths create_hash_set 0)
    ∧ Forall (path_inv (Z.of_nat (last_gen g))) paths
    ∧ generations g start_col (S (last_gen g))
      = Some (mkEngine [] set (Z.of_nat (length l)))
    ∧ represents set l
    ∧ ∀ s, s ∈ l ↔ ∃ p, p ∈ paths ∧ signature p = s.
Proof.
  destruct (generations_inner _ last_gen_inner) as (paths & Hg & Hinv & _).
  destruct (for_paths_exit g paths (mkEngine [] create_hash_set 0) [])
    as (e' & l & Hfor & Hnew & Hrep & Hc & Hl);
    [|apply represents_create|done|].
  { intros p Hp. eapply Forall_forall in Hinv as (Hr & Hsl & Hlen & Hok);
      [|exact Hp].
    pose proof last_gen_exit. split; [lia|].
    split; [congruence|by apply sig_ok_nul]. }
  assert (Hl' : ∀ s, s ∈ l ↔ ∃ p, p ∈ paths ∧ signature p = s).
  { intros s. rewrite Hl. split; [|by right].
    intros [?%elem_of_nil|?]; done. }
  rewrite generations_S, Hg. simpl. unfold while_step. simpl.
  destruct paths as [|p rest] eqn:Hp.
  - simpl in Hfor. simplify_eq. simpl in *.
    exists [], create_hash_set, l. destruct l as [|s l].
    + split; [done|]. split; [done|]. split; [done|]. done.
    + exfalso. destruct (proj1 (Hl' s)) as (p & ?%elem_of_nil & _);
        [by left|done].
  - rewrite <- Hp in *. unfold generation. rewrite Hfor.
    destruct e' as [np set c]. simpl in *. subst np c.
    exists paths, set, l. done.
Qed.

(** From then on nothing changes. *)
Lemma while_steps_empty n e :
  new_paths e = [] → while_steps g n e = Some e.
Proof.
  intros He. induction n as [|n IH]; simpl; [done|].
  rewrite IH. simpl. unfold while_step. by rewrite He.
Qed.

Lemma while_steps_add n m e :
  while_steps g (n + m) e = while_steps g n e ≫= while_steps g m.
Proof.
  induction m as [|m IH].
  - rewrite Nat.add_0_r. by destruct (while_steps g n e).
  - rewrite Nat.add_succ_r. simpl. rewrite IH.
    by destruct (while_steps g n e).
Qed.

Lemma frontier_after n : (last_gen g < n)%nat → frontier g start_col n = [].
Proof.
  intros Hn. destruct generations_exit as (? & set & l & _ & _ & Hg & _).
  unfold frontier, generations in *.
  replace n with (S (last_gen g) + (n - S (last_gen g)))%nat by lia.
  rewrite while_steps_add, Hg. simpl.
  by rewrite while_steps_empty.
Qed.

(** The paths of the [n]-th frontier are on row [n]. *)
Lemma frontier_inv n p :
  p ∈ frontier g start_col n →
  (n ≤ last_gen g)%nat ∧ path_inv (Z.of_nat n) p
  ∧ (in_grid g (mkPath 0 start_col 0 []) → in_grid g p).
Proof.
  intros Hp. destruct (decide (n ≤ last_gen g)%nat) as [Hn|Hn].
  - destruct (generations_inner n) as (paths & Hg & Hinv & Hgrid).
    { pose proof last_gen_inner. lia. }
    unfold frontier in Hp. rewrite Hg in Hp. simpl in Hp.
    split; [done|]. split.
    + eapply Forall_forall in Hinv; [exact Hinv|done].
    + intros Hs. eapply Forall_forall in Hgrid; [exact Hgrid|done|done].
  - rewrite frontier_after in Hp by lia. by apply elem_of_nil in Hp.
Qed.

(** In a grid that fits its array, a signature and the symbol appended
    to it fit their buffer, terminator included. *)
Lemma signature_fits n p :
  height g <= MAX_GRID_SIZE → p ∈ frontier g start_col n →
  0 <= sig_len p ∧ sig_len p + 1 < MAX_SIGNATURE_LEN.
Proof.
  intros Hh Hp. destruct (frontier_inv _ _ Hp) as (Hn & (_ & Hl & _) & _).
  unfold last_gen, MAX_GRID_SIZE, MAX_SIGNATURE_LEN in *. lia.
Qed.

(** The paths that leave the grid are those of the last frontier. *)
Lemma exits_last p :
  exits g start_col p ↔ p ∈ frontier g start_col (last_gen g).
Proof.
  split.
  - intros (n & Hp & Hr).
    destruct (frontier_inv _ _ Hp) as (Hn & (Hrow & _) & _).
    replace (last_gen g) with n; [done|].
    unfold last_gen in *. lia.
  - intros Hp. exists (last_gen g). split; [done|].
    destruct (frontier_inv _ _ Hp) as (_ & (-> & _) & _).
    apply last_gen_exit.
Qed.

(** With a start column inside a grid of positive height, the paths of
    all frontiers are inside the grid. *)
Lemma frontier_in_grid n p :
  0 < height g → 0 <= start_col < width g →
  p ∈ frontier g start_col n → in_grid g p.
Proof.
  intros Hh Hc Hp. destruct (frontier_inv _ _ Hp) as (_ & _ & Hgrid).
  apply Hgrid. split; simpl; lia.
Qed.

(** What [part2] returns. *)
Lemma part2_run_result :
  ∃ set l,
    part2_run g start_col = Some (Z.of_nat (length l), set)
    ∧ generations g start_col (S (last_gen g))
      = Some (mkEngine [] set (Z.of_nat (length l)))
    ∧ represents set l
    ∧ ∀ s, s ∈ l ↔ ∃ p, exits g start_col p ∧ signature p = s.
Proof.
  destruct generations_exit as (paths & set & l & Hg & Hinv & Hg' & Hrep & Hl).
  exists set, l. split; [|split; [done|split; [done|]]].
  - exact (loop_from_done g _ (part2_init start_col) _ Hg' eq_refl).
  - intros s. rewrite Hl. unfold frontier in *.
    setoid_rewrite exits_last. unfold frontier. by rewrite Hg.
Qed.
End run.

(** ** The frontier, one generation after the other *)

Section frontier_more.
Context (g : Globals) (start_col : Z).
Implicit Types (p q : Path) (n : nat).

Lemma bind_nil_all {A B} (f : A → list B) (l : list A) :
  (∀ x, x ∈ l → f x = []) → l ≫= f = [].
Proof.
  induction l as [|x l IH]; intros Hf; [done|]. csimpl.
  rewrite Hf by (by left). rewrite IH; [done|].
  intros y Hy. apply Hf. by right.
Qed.

(** Each frontier is what the paths of the one before emit. *)
Lemma frontier_step n :
  frontier g start_col (S n) = frontier g start_col n ≫= emitted g.
Proof.
  destruct (decide (Z.of_nat (S n) < height g)) as [Hn|Hn].
  - destruct (generations_inner g start_col n) as (paths & Hg & Hinv & _);
      [lia|].
    unfold frontier. rewrite generations_S, Hg. simpl.
    unfold while_step. simpl. destruct paths as [|p rest] eqn:Hp; [done|].
    rewrite <- Hp in *. unfold generation. rewrite for_paths_inner; [done|].
    intros q Hq. eapply Forall_forall in Hinv as (-> & _); [|exact Hq]. lia.
  - rewrite frontier_after by (unfold last_gen; lia).
    symmetry. apply bind_nil_all. intros p Hp.
    destruct (frontier_inv _ _ _ _ Hp) as (_ & (Hr & _) & _).
    apply emitted_exit. lia.
Qed.

Lemma frontier_0 : frontier g start_col 0 = [mkPath 0 start_col 0 []].
Proof. done. Qed.

Lemma emitted_length p : (length (emitted g p) ≤ 2)%nat.
Proof.
  unfold emitted, expand, add_path.
  case_bool_decide; [by destruct (hash_set_add _ _ _) as [[[] ?]|]; simpl; lia|].
  repeat case_bool_decide; simpl; lia.
Qed.

Lemma bind_length_le {A B} (f : A → list B) (l : list A) (k : nat) :
  (∀ x, length (f x) ≤ k)%nat → (length (l ≫= f) ≤ k * length l)%nat.
Proof.
  intros Hf. induction l as [|x l IH]; csimpl; [lia|].
  rewrite length_app. specialize (Hf x). lia.
Qed.

Lemma frontier_length n : (length (frontier g start_col n) ≤ 2 ^ n)%nat.
Proof.
  induction n as [|n IH]; [done|].
  rewrite frontier_step.
  pose proof (bind_length_le (emitted g) (frontier g start_col n) 2
                emitted_length).
  rewrite Nat.pow_succ_r'. lia.
Qed.

Lemma drift_snoc (s : list ascii) (c : ascii) :
  drift (s ++ [c])
  = drift s + (if bool_decide (c = "L"%char) then -1
               else if bool_decide (c = "R"%char) then 1 else 0).
Proof.
  induction s as [|a s IH]; simpl; [lia|]. rewrite IH. lia.
Qed.

Lemma frontier_col n : ∀ p,
  p ∈ frontier g start_col n → col p = start_col + drift (signature p).
Proof.
  induction n as [|n IH]; intros q Hq.
  - rewrite frontier_0 in Hq. apply list_elem_of_singleton in Hq as ->.
    simpl. lia.
  - rewrite frontier_step in Hq.
    apply list_elem_of_bind in Hq as (p & Hq & Hp).
    destruct (frontier_inv _ _ _ _ Hp) as (_ & (_ & Hl & Hs & _) & _).
    apply emitted_successor in Hq as [_ Hq]; [|congruence].
    specialize (IH p Hp).
    destruct Hq as [[-> _]|[[-> _]| ->]]; simpl; rewrite drift_snoc;
      simpl; lia.
Qed.

Lemma emitted_signatures_NoDup p :
  sig_len p = len (signature p) → NoDup (signature <$> emitted g p).
Proof.
  intros Hl.
  destruct (decide (row p + 1 < height g)) as [Hr|Hr];
    [|rewrite emitted_exit by lia; constructor].
  destruct (decide (grid_at g (row p + 1) (col p) = "^"%char)) as [Hc|Hc].
  - rewrite emitted_deflector by done.
    repeat case_bool_decide; simpl; repeat constructor;
      rewrite ?elem_of_nil, ?list_elem_of_singleton; try tauto.
    intros Heq. apply app_inj_tail in Heq as [_ Heq]. discriminate.
  - rewrite emitted_pass by done. simpl. repeat constructor.
    apply not_elem_of_nil.
Qed.

Lemma bind_signatures_NoDup (l : list Path) :
  (∀ p, p ∈ l → sig_len p = len (signature p)) →
  NoDup (signature <$> l) → NoDup (signature <$> (l ≫= emitted g)).
Proof.
  induction l as [|p l IH]; intros Hl Hnd; csimpl; [constructor|].
  apply NoDup_cons in Hnd as [Hp Hnd].
  rewrite fmap_app. apply NoDup_app. split; [|split].
  - apply emitted_signatures_NoDup, Hl. by left.
  - intros s (q & -> & Hq)%list_elem_of_fmap (q' & Heq & Hq')%list_elem_of_fmap.
    apply list_elem_of_bind in Hq' as (p' & Hq' & Hp').
    apply emitted_successor in Hq as [_ Hq]; [|apply Hl; by left].
    apply emitted_successor in Hq' as [_ Hq']; [|apply Hl; by right].
    apply Hp. apply list_elem_of_fmap. exists p'. split; [|done].
    destruct Hq as [[-> _]|[[-> _]| ->]];
      destruct Hq' as [[-> _]|[[-> _]| ->]]; simpl in Heq;
      by apply app_inj_tail in Heq as [? _].
  - apply IH; [|done]. intros; apply Hl; by right.
Qed.

Lemma frontier_signatures_NoDup n :
  NoDup (signature <$> frontier g start_col n).
Proof.
  induction n as [|n IH].
  - rewrite frontier_0. simpl. repeat constructor. apply not_elem_of_nil.
  - rewrite frontier_step. apply bind_signatures_NoDup; [|done].
    intros p Hp. destruct (frontier_inv _ _ _ _ Hp) as (_ & (_ & ? & ? & _) & _).
    congruence.
Qed.

(** The count is the size of the last frontier. *)
Lemma part2_last_frontier :
  part2 g start_col
  = Some (Z.of_nat (length (frontier g start_col (last_gen g)))).
Proof.
  destruct (part2_run_result g start_col)
    as (set & l & Hrun & _ & (_ & Hnd & _ & _) & Hl).
  unfold part2. rewrite Hrun. simpl. do 2 f_equal.
  rewrite <- (length_fmap signature).
  apply Permutation_length, NoDup_Permutation;
    [done|apply frontier_signatures_NoDup|].
  intros s. rewrite Hl, list_elem_of_fmap.
  split.
  - intros (p & Hp%exits_last & <-). eauto.
  - intros (p & -> & Hp). exists p. split; [|done]. by apply exits_last.
Qed.
End frontier_more.

(** ** The engine against the rules of the specification *)

Section spec.
Context (g : Globals) (start_col : Z).
Implicit Types (p q : Path) (n : nat).

Lemma grid_at_spec_cell (r c : Z) :
  0 <= r → 0 <= c →
  grid_at g r c = "^"%char ↔ spec_cell g r c = Some "^"%char.
Proof.
  intros Hr Hc. unfold grid_at, spec_cell.
  rewrite bool_decide_eq_true_2 by lia.
  rewrite !nth_lookup.
  destruct (grid g !! Z.to_nat r) as [line|]; simpl;
    [|split; discriminate].
  destruct (line !! Z.to_nat c) as [ch|]; simpl;
    [split; congruence|split; discriminate].
Qed.

(** What a path emits, with the cell that decided it. *)
Lemma emitted_cases p q :
  sig_len p = len (signature p) → q ∈ emitted g p →
  row p + 1 < height g ∧
  (grid_at g (row p + 1) (col p) = "^"%char
   ∧ (q = successor p (-1) "L" ∧ col p > 0
      ∨ q = successor p 1 "R" ∧ col p < width g - 1)
   ∨ grid_at g (row p + 1) (col p) ≠ "^"%char ∧ q = successor p 0 "D").
Proof.
  intros Hl Hq.
  destruct (decide (row p + 1 < height g)) as [Hr|Hr];
    [|rewrite emitted_exit in Hq by lia; by apply elem_of_nil in Hq].
  split; [done|].
  destruct (decide (grid_at g (row p + 1) (col p) = "^"%char)) as [Hc|Hc].
  - left. split; [done|]. rewrite emitted_deflector in Hq by done.
    apply elem_of_app in Hq as [Hq|Hq]; case_bool_decide;
      try (by apply elem_of_nil in Hq);
      apply list_elem_of_singleton in Hq; auto.
  - right. split; [done|]. rewrite emitted_pass in Hq by done.
    by apply list_elem_of_singleton in Hq.
Qed.

(** Every path the engine holds is a path of the specification. *)
Lemma frontier_spec_path n : ∀ p,
  0 <= start_col → p ∈ frontier g start_col n →
  0 <= col p ∧ spec_path g start_col (row p) (col p) (signature p).
Proof.
  induction n as [|n IH]; intros q Hs Hq.
  - rewrite frontier_0 in Hq. apply list_elem_of_singleton in Hq as ->.
    simpl. split; [done|constructor].
  - rewrite frontier_step in Hq.
    apply list_elem_of_bind in Hq as (p & Hq & Hp).
    destruct (IH p Hs Hp) as [Hcol Hsp].
    destruct (frontier_inv _ _ _ _ Hp) as (_ & (Hrow & Hl & Hlen & _) & _).
    apply emitted_cases in Hq as [Hr Hq]; [|congruence].
    assert (0 <= row p + 1) by lia.
    destruct Hq as [[Hc [[-> ?]|[-> ?]]]|[Hc ->]]; simpl.
    + split; [lia|]. replace (col p + -1) with (col p - 1) by lia.
      apply sp_left; [done..| |done]. apply grid_at_spec_cell; (lia || done).
    + split; [lia|].
      apply sp_right; [done..| |done]. apply grid_at_spec_cell; (lia || done).
    + split; [lia|]. rewrite Z.add_0_r.
      apply sp_down; [done..|]. rewrite <- grid_at_spec_cell; (lia || done).
Qed.

(** Every path of the specification is held by the engine, in the
    frontier of its row. *)
Lemma spec_path_frontier (r c : Z) (s : list ascii) :
  0 <= start_col → spec_path g start_col r c s →
  0 <= r ∧ 0 <= c ∧ mkPath r c r s ∈ frontier g start_col (Z.to_nat r).
Proof.
  intros Hs Hsp.
  induction Hsp as [|r c s Hsp IH Hr Hc Hcol|r c s Hsp IH Hr Hc Hcol
                    |r c s Hsp IH Hr Hc].
  - split; [done|]. split; [done|]. rewrite frontier_0. left.
  - destruct IH as (H0 & Hc0 & Hin). split; [lia|]. split; [lia|].
    replace (Z.to_nat (r + 1)) with (S (Z.to_nat r)) by lia.
    rewrite frontier_step. apply list_elem_of_bind. eexists. split; [|exact Hin].
    destruct (frontier_inv _ _ _ _ Hin) as (_ & (_ & Hl & Hlen & _) & _).
    simpl in Hl, Hlen.
    rewrite emitted_deflector; simpl;
      [|done|congruence|apply grid_at_spec_cell; (lia || done)].
    rewrite (bool_decide_eq_true_2 (c > 0)) by done.
    apply elem_of_app. left. unfold successor. simpl.
    replace (c + -1) with (c - 1) by lia. left.
  - destruct IH as (H0 & Hc0 & Hin). split; [lia|]. split; [lia|].
    replace (Z.to_nat (r + 1)) with (S (Z.to_nat r)) by lia.
    rewrite frontier_step. apply list_elem_of_bind. eexists. split; [|exact Hin].
    destruct (frontier_inv _ _ _ _ Hin) as (_ & (_ & Hl & Hlen & _) & _).
    simpl in Hl, Hlen.
    rewrite emitted_deflector; simpl;
      [|done|congruence|apply grid_at_spec_cell; (lia || done)].
    rewrite (bool_decide_eq_true_2 (c < width g - 1)) by done.
    apply elem_of_app. right. left.
  - destruct IH as (H0 & Hc0 & Hin). split; [lia|]. split; [lia|].
    replace (Z.to_nat (r + 1)) with (S (Z.to_nat r)) by lia.
    rewrite frontier_step. apply list_elem_of_bind. eexists. split; [|exact Hin].
    destruct (frontier_inv _ _ _ _ Hin) as (_ & (_ & Hl & Hlen & _) & _).
    simpl in Hl, Hlen.
    rewrite emitted_pass; simpl;
      [|done|congruence|rewrite grid_at_spec_cell; (lia || done)].
    unfold successor. simpl. rewrite Z.add_0_r. left.
Qed.

(** The signatures that leave the grid are the same on both sides. *)
Lemma exits_spec_exit (s : list ascii) :
  0 <= start_col →
  (∃ p, exits g start_col p ∧ signature p = s) ↔ spec_exit g start_col s.
Proof.
  intros Hs. split.
  - intros (p & (n & Hp & Hr) & <-).
    destruct (frontier_spec_path n p Hs Hp) as [_ Hsp].
    exists (row p), (col p). split; [done|lia].
  - intros (r & c & Hsp & Hr).
    destruct (spec_path_frontier r c s Hs Hsp) as (_ & _ & Hin).
    exists (mkPath r c r s). split; [|done].
    exists (Z.to_nat r). split; [done|simpl; lia].
Qed.
End spec.

(** ** [main] as a whole *)

(** For the globals [main] has read, a start column below [width] is
    all it takes: the height is then positive. *)
Lemma main_frontier_in_grid lines g start_col n p :
  read_grid lines = Some g →
  0 <= start_col < width g →
  p ∈ frontier g start_col n →
  in_grid g p.
Proof.
  intros Hg Hc. apply frontier_in_grid; [|done].
  destruct (read_grid_loaded lines g Hg) as ((_ & _ & Hwh) & _).
  apply Hwh. lia.
Qed.

(** Two small inputs, from the lines read to the count: a deflector
    with room on both sides, and one on the left edge. *)
Example main_split :
  main [ ["."; "S"; "."; LF]; ["."; "^"; "."; LF] ]%char = Some 2.
Proof. vm_compute. reflexivity. Qed.

Example main_edge :
  read_grid [ ["S"; "."; LF]; [LF]; ["^"; "."] ]%char = Some grid_edge
  ∧ main [ ["S"; "."; LF]; [LF]; ["^"; "."] ]%char = Some 1.
Proof. split; vm_compute; reflexivity. Qed.

(** * Main results *)

(** ** C1 *)

(** C1. For every grid and every start column that is not negative (so
    for every valid grid and [0 <= start_col < width]), [part2] returns
    the number of distinct signatures among the paths that leave the
    grid, the paths being those of the rules of the specification
    ([spec_path], [spec_exit]); that number is also the [size] of the
    set when the loop ends, and the set holds exactly those
    signatures. *)
Theorem part2_counts_distinct_signatures (g : Globals) (start_col : Z) :
  0 <= start_col →
  ∃ (set : HashSet) (sigs : list (list ascii)),
    part2_run g start_col = Some (Z.of_nat (length sigs), set)
    ∧ part2 g start_col = Some (Z.of_nat (length sigs))
    ∧ NoDup sigs
    ∧ (∀ s, s ∈ sigs ↔ spec_exit g start_col s)
    ∧ (∀ s, s ∈ sigs ↔ ∃ p, exits g start_col p ∧ signature p = s)
    ∧ hsize set = Z.of_nat (length sigs)
    ∧ (∀ s, stored set s ↔ s ∈ sigs).
Proof.
  intros Hs. destruct (part2_run_result g start_col)
    as (set & l & Hrun & _ & (Hwf & Hnd & Hst & Hsz) & Hl).
  exists set, l. unfold part2. rewrite Hrun.
  do 3 (split; [done|]). split; [|done].
  intros s. rewrite Hl. by apply exits_spec_exit.
Qed.

Lemma part2_counts_distinct_signatures_witness :
  0 <= 1
  ∧ spec_exit grid_split 1 ["L"%char] ∧ spec_exit grid_split 1 ["R"%char]
  ∧ ∃ (set : HashSet) (sigs : list (list ascii)),
      part2_run grid_split 1 = Some (2, set)
      ∧ length sigs = 2%nat
      ∧ ["L"%char] ∈ sigs ∧ ["R"%char] ∈ sigs
      ∧ ∀ s, stored set s ↔ s ∈ sigs.
Proof.
  assert (H0 : 0 <= 1) by lia.
  assert (HL : spec_exit grid_split 1 ["L"%char]).
  { exists 1, 0. split; [|simpl; lia].
    apply (sp_left grid_split 1 0 1 []); [constructor|reflexivity..]. }
  assert (HR : spec_exit grid_split 1 ["R"%char]).
  { exists 1, 2. split; [|simpl; lia].
    apply (sp_right grid_split 1 0 1 []); [constructor|reflexivity..]. }
  destruct (part2_counts_distinct_signatures grid_split 1 H0)
    as (set & sigs & Hrun & Hp & Hnd & Hspec & _ & _ & Hst).
  assert (Hlen : length sigs = 2%nat).
  { assert (Hc : part2 grid_split 1 = Some 2) by (vm_compute; reflexivity).
    rewrite Hc in Hp. injection Hp as Hp. lia. }
  do 3 (split; [assumption|]).
  exists set, sigs. split; [rewrite Hrun, Hlen; reflexivity|].
  split; [exact Hlen|].
  split; [by apply Hspec|]. split; [by apply Hspec|exact Hst].
Defined.

(** ** C2 *)

(** C2. A path [p] of a frontier whose next row is inside the grid
    leaves the set and the counter alone and appends its successors to
    [new_paths]: under a deflector, the left successor (signature
    [p.signature + 'L']) exactly when [col > 0], followed by the right
    successor (signature [p.signature + 'R']) exactly when
    [col < width - 1]; under any other cell, the one successor straight
    down (signature [p.signature + 'D']). *)
Theorem expand_emits_successors (g : Globals) (start_col : Z) (n : nat)
    (p : Path) (e : Engine) :
  p ∈ frontier g start_col n → row p + 1 < height g →
  ∃ succ,
    expand g p e
    = Some (mkEngine (new_paths e ++ succ)
              (final_states e) (timeline_count e))
    ∧ (grid_at g (row p + 1) (col p) = "^"%char →
       succ
       = (if bool_decide (col p > 0)
          then [mkPath (row p + 1) (col p - 1) (sig_len p + 1)
                  (signature p ++ ["L"%char])]
          else [])
         ++ (if bool_decide (col p < width g - 1)
             then [mkPath (row p + 1) (col p + 1) (sig_len p + 1)
                     (signature p ++ ["R"%char])]
             else []))
    ∧ (grid_at g (row p + 1) (col p) ≠ "^"%char →
       succ
       = [mkPath (row p + 1) (col p) (sig_len p + 1)
            (signature p ++ ["D"%char])]).
Proof.
  intros Hp Hr. exists (emitted g p).
  destruct (frontier_inv _ _ _ _ Hp) as (_ & (_ & Hl & Hs & _) & _).
  split; [by apply expand_inner|]. split; intros Hc.
  - rewrite emitted_deflector by (done || congruence). done.
  - rewrite emitted_pass by (done || congruence).
    unfold successor. by rewrite Z.add_0_r.
Qed.

Lemma expand_emits_successors_witness :
  let p := mkPath 0 1 0 [] in
  p ∈ frontier grid_split 1 0 ∧ row p + 1 < height grid_split
  ∧ expand grid_split p (part2_init 1)
    = Some (mkEngine [p; mkPath 1 0 1 ["L"%char]; mkPath 1 2 1 ["R"%char]]
              create_hash_set 0).
Proof.
  assert (Hin : mkPath 0 1 0 [] ∈ frontier grid_split 1 0)
    by (vm_compute; left).
  assert (Hr : row (mkPath 0 1 0 []) + 1 < height grid_split)
    by (vm_compute; reflexivity).
  split; [exact Hin|]. split; [exact Hr|].
  destruct (expand_emits_successors grid_split 1 0 _ (part2_init 1) Hin Hr)
    as (succ & Hexp & Hdefl & _).
  rewrite Hexp, Hdefl by reflexivity. reflexivity.
Defined.

(** ** C3 *)

(** C3. For a signature [s] over L, R, D and a well-formed set:
    when no signature equal to [s] is stored, [hash_set_add] returns true
    and stores [s], changing the membership of nothing else and adding
    one to [size]; when one is stored it returns false and the set is
    unchanged.  Membership is equality of the whole signature, content
    and length, so a longer signature that extends [s] does not count
    as [s].  On the last row the engine adds one to [timeline_count]
    exactly when the call returned true. *)
Theorem hash_set_add_dedup (set : HashSet) (s : list ascii) :
  wf_set set → sig_ok s →
  (¬ stored set s →
   ∃ set', hash_set_add set s (len s) = Some (true, set')
     ∧ wf_set set'
     ∧ (∀ t, stored set' t ↔ t = s ∨ stored set t)
     ∧ hsize set' = hsize set + 1)
  ∧ (stored set s → hash_set_add set s (len s) = Some (false, set))
  ∧ (∀ g p e,
       signature p = s → sig_len p = len s → final_states e = set →
       row p + 1 >= height g →
       ∃ added set',
         hash_set_add set s (len s) = Some (added, set')
         ∧ expand g p e
           = Some (mkEngine (new_paths e) set'
                     (if added then timeline_count e + 1
                      else timeline_count e))).
Proof.
  intros Hwf Hs. pose proof (sig_ok_nul _ Hs) as Hnul.
  split; [by apply hash_set_add_absent|].
  split; [by apply hash_set_add_present|].
  intros g p e Hsig Hlen He Hr.
  assert (∃ added set', hash_set_add set s (len s) = Some (added, set'))
    as (added & set' & Hadd).
  { destruct (decide (s ++ [NUL] ∈ bucket set (hash_string s (len s))))
      as [Hin|Hin].
    - exists false, set. apply hash_set_add_present; [done..|by eexists].
    - destruct (hash_set_add_absent set s) as (set' & ? & _);
        [done|done| |by eauto].
      by rewrite stored_own_bucket. }
  exists added, set'. split; [done|]. unfold expand.
  rewrite bool_decide_eq_true_2 by done.
  rewrite Hsig, Hlen, He, Hadd. by destruct added.
Qed.

Lemma sig_ok_list (s : list ascii) :
  Forall (λ c, c ∈ ["L"; "R"; "D"]%char) s → sig_ok s.
Proof.
  intros Hs. eapply Forall_impl; [exact Hs|].
  intros c Hc. unfold move.
  repeat (apply elem_of_cons in Hc as [?|Hc]; [by auto|]).
  by apply elem_of_nil in Hc.
Qed.

Lemma wf_set_LRD : wf_set set_LRD.
Proof.
  destruct (hash_set_add_absent create_hash_set ["L"; "R"; "D"]%char)
    as (set' & Hadd & Hwf & _).
  - apply wf_create.
  - apply sig_ok_nul, sig_ok_list. repeat constructor.
  - apply stored_create.
  - unfold set_LRD. change 3 with (len ["L"; "R"; "D"]%char).
    by rewrite Hadd.
Qed.

Lemma hash_set_add_dedup_witness :
  wf_set set_LRD ∧ sig_ok ["L"; "R"]%char
  ∧ stored set_LRD ["L"; "R"; "D"]%char
  ∧ ∃ set', hash_set_add set_LRD ["L"; "R"]%char 2 = Some (true, set')
      ∧ hsize set' = 2.
Proof.
  pose proof wf_set_LRD as Hwf.
  assert (Hok : sig_ok ["L"; "R"]%char) by (apply sig_ok_list; repeat constructor).
  split; [exact Hwf|]. split; [exact Hok|]. split.
  { exists (hash_string ["L"; "R"; "D"]%char 3). vm_compute. left. }
  destruct (hash_set_add_dedup set_LRD ["L"; "R"]%char Hwf Hok)
    as (Habsent & _).
  destruct Habsent as (set' & Hadd & _ & _ & Hsz).
  - rewrite stored_own_bucket by exact Hwf.
    replace (bucket set_LRD (hash_string ["L"; "R"]%char (len ["L"; "R"]%char)))
      with (@nil (list ascii)) by (vm_compute; reflexivity).
    apply not_elem_of_nil.
  - exists set'. split; [exact Hadd|]. rewrite Hsz. reflexivity.
Defined.

(** ** C4 *)

(** C4. On a grid of positive height the loop of [part2] is over after
    at most [height] turns: the frontier is then empty, and [part2]
    returns the counter of that moment. *)
Theorem part2_loop_bounded (g : Globals) (start_col : Z) :
  0 < height g →
  ∃ set count,
    generations g start_col (Z.to_nat (height g))
    = Some (mkEngine [] set count)
    ∧ frontier g start_col (Z.to_nat (height g)) = []
    ∧ part2 g start_col = Some count.
Proof.
  intros Hh. destruct (part2_run_result g start_col)
    as (set & l & Hrun & Hgen & _).
  replace (S (last_gen g)) with (Z.to_nat (height g)) in Hgen
    by (unfold last_gen; lia).
  exists set, (Z.of_nat (length l)). unfold frontier, part2.
  rewrite Hgen, Hrun. done.
Qed.

Lemma part2_loop_bounded_witness :
  0 < height grid_split
  ∧ frontier grid_split 1 2 = [] ∧ part2 grid_split 1 = Some 2.
Proof.
  assert (Hh : 0 < height grid_split) by reflexivity.
  split; [exact Hh|].
  destruct (part2_loop_bounded grid_split 1 Hh) as (set & count & _ & Hf & _).
  split; [exact Hf|]. vm_compute. reflexivity.
Defined.

(** ** C5 *)

(** C5. A path under a deflector with no room on either side
    ([col > 0] and [col < width - 1] both fail) emits nothing, and
    expanding it leaves the whole engine as it was: nothing is handed to
    the set and the counter does not move. *)
Theorem dead_end_dropped (g : Globals) (p : Path) (e : Engine) :
  row p + 1 < height g →
  grid_at g (row p + 1) (col p) = "^"%char →
  ¬ col p > 0 → ¬ col p < width g - 1 →
  emitted g p = [] ∧ expand g p e = Some e.
Proof.
  intros Hr Hc Hleft Hright.
  assert (Hem : emitted g p = []).
  { unfold emitted, expand.
    rewrite bool_decide_eq_false_2 by lia.
    rewrite bool_decide_eq_true_2 by done.
    by rewrite !bool_decide_eq_false_2 by done. }
  split; [done|]. rewrite expand_inner by done.
  rewrite Hem, app_nil_r. by destruct e.
Qed.

Lemma dead_end_dropped_witness :
  let p := mkPath 0 0 0 [] in
  row p + 1 < height grid_narrow
  ∧ grid_at grid_narrow (row p + 1) (col p) = "^"%char
  ∧ ¬ col p > 0 ∧ ¬ col p < width grid_narrow - 1
  ∧ expand grid_narrow p (part2_init 0) = Some (part2_init 0)
  ∧ part2 grid_narrow 0 = Some 0.
Proof.
  assert (H1 : row (mkPath 0 0 0 []) + 1 < height grid_narrow) by reflexivity.
  assert (H2 : grid_at grid_narrow (row (mkPath 0 0 0 []) + 1)
                 (col (mkPath 0 0 0 [])) = "^"%char) by reflexivity.
  assert (H3 : ¬ col (mkPath 0 0 0 []) > 0) by (simpl; lia).
  assert (H4 : ¬ col (mkPath 0 0 0 []) < width grid_narrow - 1)
    by (simpl; lia).
  do 4 (split; [assumption|]).
  split; [|vm_compute; reflexivity].
  apply (dead_end_dropped grid_narrow _ (part2_init 0) H1 H2 H3 H4).
Defined.

(** ** C6 *)

(** C6. With a start column inside a grid of positive height, every path
    of every frontier is inside the grid, and its signature is made of
    L, R and D only. *)
Theorem frontier_paths_in_grid (g : Globals) (start_col : Z) (n : nat)
    (p : Path) :
  0 < height g → 0 <= start_col < width g →
  p ∈ frontier g start_col n →
  0 <= row p < height g ∧ 0 <= col p < width g
  ∧ Forall (λ c, c = "L"%char ∨ c = "R"%char ∨ c = "D"%char) (signature p).
Proof.
  intros Hh Hc Hp.
  destruct (frontier_inv _ _ _ _ Hp) as (_ & (_ & _ & _ & Hok) & Hgrid).
  destruct Hgrid as [? ?]; [|done].
  split; simpl; lia.
Qed.

Lemma frontier_paths_in_grid_witness :
  let p := mkPath 1 2 1 ["R"%char] in
  0 < height grid_split ∧ 0 <= 1 < width grid_split
  ∧ p ∈ frontier grid_split 1 1
  ∧ 0 <= row p < height grid_split ∧ 0 <= col p < width grid_split.
Proof.
  assert (H1 : 0 < height grid_split) by reflexivity.
  assert (H2 : 0 <= 1 < width grid_split) by (simpl; lia).
  assert (H3 : mkPath 1 2 1 ["R"%char] ∈ frontier grid_split 1 1)
    by (vm_compute; right; left).
  do 3 (split; [assumption|]).
  destruct (frontier_paths_in_grid grid_split 1 1 _ H1 H2 H3) as (? & ? & _).
  split; assumption.
Defined.

(** ** C7 *)

Section scan.
Context (g : Globals).

Lemma scan_start_found n : ∀ col c,
  col <= c < col + Z.of_nat n →
  grid_at g 0 c = "S"%char →
  (∀ c', col <= c' < c → grid_at g 0 c' ≠ "S"%char) →
  scan_start g n col = c.
Proof.
  induction n as [|n IH]; intros col c Hc HS Hfirst; simpl; [lia|].
  case_bool_decide as Hcol.
  - destruct (decide (col = c)) as [|Hne]; [done|].
    destruct (Hfirst col); [lia|done].
  - apply IH; [|done|intros; apply Hfirst; lia].
    destruct (decide (col = c)) as [->|]; [done|lia].
Qed.

Lemma scan_start_none n : ∀ col,
  (∀ c, col <= c < col + Z.of_nat n → grid_at g 0 c ≠ "S"%char) →
  scan_start g n col = 0.
Proof.
  induction n as [|n IH]; intros col Hnone; simpl; [done|].
  rewrite bool_decide_eq_false_2 by (apply Hnone; lia).
  apply IH. intros; apply Hnone; lia.
Qed.
End scan.

(** C7. The start column [main] hands to [part2] is the column of the
    (first) S of row 0 among the [width] columns, and 0 when row 0 has
    no S there. *)
Theorem find_start_col_marker (g : Globals) :
  (∀ c, 0 <= c < width g → grid_at g 0 c = "S"%char →
        (∀ c', 0 <= c' < c → grid_at g 0 c' ≠ "S"%char) →
        find_start_col g = c ∧ main_result g = part2 g c)
  ∧ ((∀ c, 0 <= c < width g → grid_at g 0 c ≠ "S"%char) →
     find_start_col g = 0 ∧ main_result g = part2 g 0).
Proof.
  unfold main_result. split.
  - intros c Hc HS Hfirst.
    assert (find_start_col g = c) as ->; [|done].
    apply scan_start_found; [lia|done|done].
  - intros Hnone.
    assert (find_start_col g = 0) as ->; [|done].
    apply scan_start_none. intros c Hc. apply Hnone. lia.
Qed.

Lemma find_start_col_marker_witness :
  (0 <= 1 < width grid_split ∧ grid_at grid_split 0 1 = "S"%char
   ∧ find_start_col grid_split = 1)
  ∧ ((∀ c, 0 <= c < width grid_unmarked →
           grid_at grid_unmarked 0 c ≠ "S"%char)
     ∧ find_start_col grid_unmarked = 0).
Proof.
  split.
  - assert (H1 : 0 <= 1 < width grid_split) by (simpl; lia).
    assert (H2 : grid_at grid_split 0 1 = "S"%char) by reflexivity.
    do 2 (split; [assumption|]).
    apply (proj1 (find_start_col_marker grid_split) 1 H1 H2).
    intros c' Hc'. replace c' with 0 by lia. discriminate.
  - assert (H : ∀ c, 0 <= c < width grid_unmarked →
                     grid_at grid_unmarked 0 c ≠ "S"%char).
    { intros c Hc. simpl in Hc.
      assert (c = 0 ∨ c = 1) as [-> | ->] by lia; discriminate. }
    split; [exact H|].
    apply (proj2 (find_start_col_marker grid_unmarked) H).
Defined.

(** ** C8 *)

(** C8. On the grid [.S.] / [.^.] with start column 1, the deflector
    under the start sends one path to each side; the two signatures L
    and R both reach the set, and [part2] returns 2. *)
Theorem scenario_split :
  frontier grid_split 1 1
  = [mkPath 1 0 1 ["L"%char]; mkPath 1 2 1 ["R"%char]]
  ∧ part2 grid_split 1 = Some 2
  ∧ ∃ set, part2_run grid_split 1 = Some (2, set)
      ∧ hsize set = 2
      ∧ hash_set_contains set ["L"%char] 1 = Some true
      ∧ hash_set_contains set ["R"%char] 1 = Some true.
Proof.
  split; [by vm_compute|]. split; [by vm_compute|].
  eexists. split; [vm_compute; reflexivity|].
  split; [reflexivity|]. split; vm_compute; reflexivity.
Qed.

(** ** C9 *)

Lemma NoDup_only {A} (l : list A) (x : A) :
  NoDup l → (∀ y, y ∈ l ↔ y = x) → l = [x].
Proof.
  intros Hnd Hl. destruct l as [|a l].
  - exfalso. eapply elem_of_nil, (proj2 (Hl x) eq_refl).
  - assert (a = x) as -> by (apply Hl; by left).
    apply NoDup_cons in Hnd as [Hx Hnd].
    destruct l as [|b l]; [done|].
    assert (b = x) as -> by (apply Hl; right; by left).
    destruct Hx. by left.
Qed.

(** C9. On a grid of one row, whatever the start column, [part2]
    returns 1: the first path leaves at once, and the set ends up
    holding the empty signature and nothing else. *)
Theorem single_row (g : Globals) (c : Z) :
  height g = 1 →
  part2 g c = Some 1
  ∧ frontier g c 0 = [mkPath 0 c 0 []]
  ∧ ∃ set, part2_run g c = Some (1, set) ∧ ∀ s, stored set s ↔ s = [].
Proof.
  intros Hh. destruct (part2_run_result g c)
    as (set & l & Hrun & _ & (_ & Hnd & Hst & _) & Hl).
  assert (Hlast : last_gen g = 0%nat) by (unfold last_gen; lia).
  assert (l = [[]]) as ->.
  { apply NoDup_only; [done|]. intros s. rewrite Hl. split.
    - intros (p & Hp & <-). apply exits_last in Hp. rewrite Hlast in Hp.
      change (frontier g c 0) with [mkPath 0 c 0 []] in Hp.
      by apply list_elem_of_singleton in Hp as ->.
    - intros ->. exists (mkPath 0 c 0 []). split; [|done].
      apply exits_last. rewrite Hlast. left. }
  unfold part2. rewrite Hrun. split; [done|]. split; [done|].
  exists set. split; [done|]. intros s. rewrite Hst.
  apply list_elem_of_singleton.
Qed.

Lemma single_row_witness :
  height grid_row = 1 ∧ part2 grid_row 2 = Some 1.
Proof.
  assert (Hh : height grid_row = 1) by reflexivity.
  split; [exact Hh|]. apply (single_row grid_row 2 Hh).
Defined.

(** ** C10 *)

(** C10, as stated, fails: on the grid [.S.] / [.^.] of height 2 the
    recorded signature L has length 1. *)
Lemma recorded_length_counterexample :
  recorded grid_split 1 ["L"%char]
  ∧ len ["L"%char] ≠ height grid_split.
Proof.
  split; [|discriminate].
  eexists _, _. split; [vm_compute; reflexivity|].
  exists (hash_string ["L"%char] 1). vm_compute. left.
Qed.

(** C10, amended. Every path of the [n]-th frontier is on row [n] and
    its signature has exactly [row] symbols, which [sig_len] records;
    hence, on a grid of positive height, every signature in the set when
    [part2] returns has length [height - 1], the index of the last row. *)
Theorem signature_length_row (g : Globals) (start_col : Z) :
  0 < height g →
  (∀ n p, p ∈ frontier g start_col n →
     row p = Z.of_nat n ∧ sig_len p = row p ∧ len (signature p) = row p)
  ∧ (∀ s, recorded g start_col s → len s = height g - 1).
Proof.
  intros Hh. split.
  - intros n p Hp.
    destruct (frontier_inv _ _ _ _ Hp) as (_ & (Hr & Hl & Hs & _) & _).
    lia.
  - intros s (count & set & Hrun & Hs).
    destruct (part2_run_result g start_col)
      as (set' & l & Hrun' & _ & (_ & _ & Hst & _) & Hl).
    rewrite Hrun in Hrun'. simplify_eq.
    apply Hst, Hl in Hs as (p & Hp%exits_last & <-).
    destruct (frontier_inv _ _ _ _ Hp) as (_ & (_ & _ & Hs & _) & _).
    unfold last_gen in Hs. lia.
Qed.

Lemma signature_length_row_witness :
  0 < height grid_split
  ∧ (∀ s, recorded grid_split 1 s → len s = 1).
Proof.
  assert (Hh : 0 < height grid_split) by reflexivity.
  split; [exact Hh|].
  apply (proj2 (signature_length_row grid_split 1 Hh)).
Defined.

(** * Further properties *)

(** ** The hash set on its own *)

Section hash_set_more.
Implicit Types (set : HashSet) (s t u : list ascii).

Lemma hash_set_contains_stored set s :
  wf_set set → NUL ∉ s →
  ∀ b, hash_set_contains set s (len s) = Some b ↔ (b = true ↔ stored set s).
Proof.
  intros Hwf Hs b. rewrite hash_set_contains_spec by done.
  assert (Hc : bool_decide (s ++ [NUL] ∈ bucket set (hash_string s (len s)))
               = true ↔ stored set s).
  { rewrite bool_decide_eq_true. symmetry. by apply stored_own_bucket. }
  revert Hc. generalize (stored set s).
  generalize (bool_decide (s ++ [NUL] ∈ bucket set (hash_string s (len s)))).
  intros c P Hc. destruct c, b; intuition congruence.
Qed.

(** [hash_set_add] in one statement, whether or not [s] is stored. *)
Lemma hash_set_add_total set s :
  wf_set set → NUL ∉ s →
  ∃ b set', hash_set_add set s (len s) = Some (b, set')
    ∧ wf_set set'
    ∧ (b = true ↔ ¬ stored set s) ∧ (b = false ↔ stored set s)
    ∧ (∀ t, stored set' t ↔ t = s ∨ stored set t)
    ∧ hsize set' = hsize set + (if b then 1 else 0).
Proof.
  intros Hwf Hs.
  destruct (decide (s ++ [NUL] ∈ bucket set (hash_string s (len s))))
    as [Hin|Hin].
  - assert (stored set s) as Hst by (by eexists).
    exists false, set. rewrite hash_set_add_present by done.
    split; [done|]. split; [done|]. split; [split; [done|tauto]|].
    split; [done|].
    split; [|lia]. intros t. split; [by right|]. by intros [->|?].
  - assert (¬ stored set s) as Hst by (by rewrite stored_own_bucket).
    destruct (hash_set_add_absent set s Hwf Hs Hst)
      as (set' & -> & Hwf' & Hmem & Hsz).
    exists true, set'. do 3 (split; [done|]). by split.
Qed.
End hash_set_more.

(** X1. [hash_string] always yields an index of the bucket table,
    whatever bytes and length it is given; so in a well-formed set every
    chain that holds a node hangs off an index of the table. *)
Theorem hash_string_in_table (str : list ascii) (n : Z) (set : HashSet) :
  0 <= hash_string str n < HASH_TABLE_SIZE
  ∧ (wf_set set →
     ∀ hash, bucket set hash ≠ [] → 0 <= hash < HASH_TABLE_SIZE).
Proof.
  assert (Hr : ∀ s k, 0 <= hash_string s k < HASH_TABLE_SIZE).
  { intros s k. unfold hash_string. apply Z.mod_pos_bound. reflexivity. }
  split; [apply Hr|]. intros Hwf hash Hne.
  destruct (bucket set hash) as [|node chain] eqn:Hb; [done|].
  destruct (Hwf hash node) as (t & _ & _ & <-); [rewrite Hb; by left|].
  apply Hr.
Qed.

Lemma hash_string_in_table_witness :
  wf_set set_LRD
  ∧ bucket set_LRD (hash_string ["L"; "R"; "D"]%char 3) ≠ []
  ∧ 0 <= hash_string ["L"; "R"; "D"]%char 3 < HASH_TABLE_SIZE.
Proof.
  pose proof wf_set_LRD as Hwf.
  assert (Hne : bucket set_LRD (hash_string ["L"; "R"; "D"]%char 3) ≠ [])
    by (vm_compute; discriminate).
  split; [exact Hwf|]. split; [exact Hne|].
  apply (proj2 (hash_string_in_table [] 0 set_LRD) Hwf _ Hne).
Defined.

(** X2. On a well-formed set, [hash_set_contains] never faults and
    answers true exactly when a signature equal to the key, in content
    and in length, is stored. *)
Theorem hash_set_contains_correct (set : HashSet) (s : list ascii) :
  wf_set set → NUL ∉ s →
  ∃ b, hash_set_contains set s (len s) = Some b ∧ (b = true ↔ stored set s).
Proof.
  intros Hwf Hs. eexists. split; [by apply hash_set_contains_spec|].
  rewrite (stored_own_bucket set s Hwf). by rewrite bool_decide_eq_true.
Qed.

Lemma hash_set_contains_correct_witness :
  wf_set set_LRD ∧ (NUL ∉ ["L"; "R"]%char)
  ∧ hash_set_contains set_LRD ["L"; "R"]%char 2 = Some false
  ∧ ¬ stored set_LRD ["L"; "R"]%char.
Proof.
  pose proof wf_set_LRD as Hwf.
  assert (Hs : NUL ∉ ["L"; "R"]%char).
  { apply sig_ok_nul, sig_ok_list. repeat constructor. }
  split; [exact Hwf|]. split; [exact Hs|].
  destruct (hash_set_contains_correct set_LRD ["L"; "R"]%char Hwf Hs)
    as (b & Hb & Hst).
  assert (Hc : hash_set_contains set_LRD ["L"; "R"]%char 2 = Some false)
    by (vm_compute; reflexivity).
  split; [exact Hc|].
  change 2 with (len ["L"; "R"]%char) in Hc. rewrite Hc in Hb.
  injection Hb as <-. intros Hin. apply Hst in Hin. discriminate.
Defined.

(** X3. Insert, then look up: whatever [hash_set_add] returns, the key
    is found afterwards; it returns true exactly when the key was not
    found before, and [size] grows by one in that case only. *)
Theorem hash_set_add_then_contains (set : HashSet) (s : list ascii) :
  wf_set set → NUL ∉ s →
  ∃ found added set',
    hash_set_contains set s (len s) = Some found
    ∧ hash_set_add set s (len s) = Some (added, set')
    ∧ added = negb found
    ∧ hash_set_contains set' s (len s) = Some true
    ∧ hsize set' = hsize set + (if added then 1 else 0)
    ∧ wf_set set'.
Proof.
  intros Hwf Hs.
  destruct (hash_set_add_total set s Hwf Hs)
    as (added & set' & Hadd & Hwf' & Hb & Hb' & Hmem & Hsz).
  exists (negb added), added, set'.
  split.
  { apply hash_set_contains_stored; [done..|].
    rewrite <- Hb'. by destruct added. }
  split; [done|]. split; [by destruct added|].
  split; [|done].
  apply hash_set_contains_stored; [done..|]. split; [|done].
  intros _. apply Hmem. by left.
Qed.

Lemma hash_set_add_then_contains_witness :
  wf_set set_LRD ∧ (NUL ∉ ["L"; "R"]%char)
  ∧ ∃ set', hash_set_add set_LRD ["L"; "R"]%char 2 = Some (true, set')
      ∧ hash_set_contains set' ["L"; "R"]%char 2 = Some true
      ∧ hsize set' = 2.
Proof.
  pose proof wf_set_LRD as Hwf.
  assert (Hs : NUL ∉ ["L"; "R"]%char).
  { apply sig_ok_nul, sig_ok_list. repeat constructor. }
  split; [exact Hwf|]. split; [exact Hs|].
  destruct (hash_set_add_then_contains set_LRD ["L"; "R"]%char Hwf Hs)
    as (found & added & set' & Hc & Hadd & -> & Hc' & Hsz & _).
  assert (Hf : hash_set_contains set_LRD ["L"; "R"]%char (len ["L"; "R"]%char)
               = Some false) by (vm_compute; reflexivity).
  rewrite Hf in Hc. injection Hc as <-.
  exists set'. split; [exact Hadd|]. split; [exact Hc'|].
  rewrite Hsz. reflexivity.
Defined.

(** X4. [hash_set_add] of one key changes the answer for no other key:
    every other lookup returns what it returned before, so nothing is
    ever removed and nothing else appears. *)
Theorem hash_set_add_frame (set set' : HashSet) (s t : list ascii)
    (added : bool) :
  wf_set set → NUL ∉ s → NUL ∉ t → t ≠ s →
  hash_set_add set s (len s) = Some (added, set') →
  hash_set_contains set' t (len t) = hash_set_contains set t (len t).
Proof.
  intros Hwf Hs Ht Hne Hadd.
  destruct (hash_set_add_total set s Hwf Hs)
    as (b & set1 & Hadd1 & Hwf' & _ & _ & Hmem & _).
  rewrite Hadd in Hadd1. simplify_eq.
  rewrite !hash_set_contains_spec by done.
  f_equal. apply bool_decide_ext.
  rewrite <- !stored_own_bucket by done. rewrite Hmem. tauto.
Qed.

Lemma hash_set_add_frame_witness :
  wf_set set_LRD
  ∧ ∃ set', hash_set_add set_LRD ["L"; "R"]%char 2 = Some (true, set')
      ∧ hash_set_contains set' ["L"; "R"; "D"]%char 3 = Some true
      ∧ hash_set_contains set' ["L"]%char 1 = Some false.
Proof.
  pose proof wf_set_LRD as Hwf. split; [exact Hwf|].
  assert (Hnul : ∀ s, Forall (λ c, c ∈ ["L"; "R"; "D"]%char) s → NUL ∉ s)
    by (intros; by apply sig_ok_nul, sig_ok_list).
  destruct (hash_set_add set_LRD ["L"; "R"]%char 2) as [[added set']|] eqn:Hadd;
    [|vm_compute in Hadd; discriminate].
  assert (added = true) as ->.
  { vm_compute in Hadd. by injection Hadd as <- _. }
  exists set'. split; [reflexivity|].
  assert (Hframe : ∀ t, Forall (λ c, c ∈ ["L"; "R"; "D"]%char) t →
            t ≠ ["L"; "R"]%char →
            hash_set_contains set' t (len t)
            = hash_set_contains set_LRD t (len t)).
  { intros t Ht Hne.
    apply (hash_set_add_frame set_LRD set' ["L"; "R"]%char t true Hwf);
      [apply Hnul; repeat constructor|by apply Hnul|exact Hne|exact Hadd]. }
  split.
  - change 3 with (len ["L"; "R"; "D"]%char).
    rewrite Hframe; [vm_compute; reflexivity|repeat constructor|discriminate].
  - change 1 with (len ["L"]%char).
    rewrite Hframe; [vm_compute; reflexivity|repeat constructor|discriminate].
Defined.

(** X5. Adding a key a second time returns false and leaves the set,
    [size] included, exactly as the first call left it. *)
Theorem hash_set_add_twice (set : HashSet) (s : list ascii) :
  wf_set set → NUL ∉ s →
  ∃ added set',
    hash_set_add set s (len s) = Some (added, set')
    ∧ hash_set_add set' s (len s) = Some (false, set').
Proof.
  intros Hwf Hs.
  destruct (hash_set_add_total set s Hwf Hs)
    as (added & set' & Hadd & Hwf' & _ & _ & Hmem & _).
  exists added, set'. split; [done|].
  apply hash_set_add_present; [done..|]. apply Hmem. by left.
Qed.

Lemma hash_set_add_twice_witness :
  wf_set create_hash_set ∧ (NUL ∉ ["L"; "D"]%char)
  ∧ ∃ set', hash_set_add create_hash_set ["L"; "D"]%char 2 = Some (true, set')
      ∧ hash_set_add set' ["L"; "D"]%char 2 = Some (false, set').
Proof.
  assert (Hs : NUL ∉ ["L"; "D"]%char).
  { apply sig_ok_nul, sig_ok_list. repeat constructor. }
  split; [exact wf_create|]. split; [exact Hs|].
  destruct (hash_set_add_twice create_hash_set ["L"; "D"]%char wf_create Hs)
    as (added & set' & Hadd & Hadd').
  assert (added = true) as ->.
  { vm_compute in Hadd. by injection Hadd as <- _. }
  exists set'. split; [exact Hadd|exact Hadd'].
Defined.

(** X6. The order of two insertions does not matter for what the set
    answers afterwards: both orders succeed, count the same number of
    new keys, end with the same [size] and the same answer to every
    lookup. *)
Theorem hash_set_add_commute (set : HashSet) (s t : list ascii) :
  wf_set set → NUL ∉ s → NUL ∉ t →
  ∃ a1 set1 a2 set12 b1 set2 b2 set21,
    hash_set_add set s (len s) = Some (a1, set1)
    ∧ hash_set_add set1 t (len t) = Some (a2, set12)
    ∧ hash_set_add set t (len t) = Some (b1, set2)
    ∧ hash_set_add set2 s (len s) = Some (b2, set21)
    ∧ hsize set12 = hsize set21
    ∧ (∀ u, NUL ∉ u →
         hash_set_contains set12 u (len u)
         = hash_set_contains set21 u (len u)).
Proof.
  intros Hwf Hs Ht.
  destruct (hash_set_add_total set s Hwf Hs)
    as (a1 & set1 & Ha1 & Hwf1 & Ha1t & Ha1f & Hm1 & Hz1).
  destruct (hash_set_add_total set1 t Hwf1 Ht)
    as (a2 & set12 & Ha2 & Hwf12 & Ha2t & Ha2f & Hm12 & Hz12).
  destruct (hash_set_add_total set t Hwf Ht)
    as (b1 & set2 & Hb1 & Hwf2 & Hb1t & Hb1f & Hm2 & Hz2).
  destruct (hash_set_add_total set2 s Hwf2 Hs)
    as (b2 & set21 & Hb2 & Hwf21 & Hb2t & Hb2f & Hm21 & Hz21).
  exists a1, set1, a2, set12, b1, set2, b2, set21.
  do 4 (split; [done|]). split.
  - rewrite Hz12, Hz1, Hz21, Hz2.
    rewrite Hm1 in Ha2t, Ha2f. rewrite Hm2 in Hb2t, Hb2f.
    destruct (decide (s = t)) as [->|Hne].
    + destruct a1, a2, b1, b2; intuition (try congruence; try lia).
    + assert (t ≠ s) by congruence.
      destruct a1, a2, b1, b2; intuition (try congruence; try lia).
  - intros u Hu. rewrite !hash_set_contains_spec by done.
    f_equal. apply bool_decide_ext.
    rewrite <- !stored_own_bucket by done.
    rewrite Hm12, Hm1, Hm21, Hm2. tauto.
Qed.

Lemma hash_set_add_commute_witness :
  wf_set set_LRD ∧ (NUL ∉ ["L"]%char) ∧ (NUL ∉ ["R"]%char)
  ∧ ∃ a1 set1 a2 set12 b1 set2 b2 set21,
      hash_set_add set_LRD ["L"]%char 1 = Some (a1, set1)
      ∧ hash_set_add set1 ["R"]%char 1 = Some (a2, set12)
      ∧ hash_set_add set_LRD ["R"]%char 1 = Some (b1, set2)
      ∧ hash_set_add set2 ["L"]%char 1 = Some (b2, set21)
      ∧ hsize set12 = hsize set21
      ∧ hsize set12 = 3.
Proof.
  pose proof wf_set_LRD as Hwf.
  assert (HL : NUL ∉ ["L"]%char)
    by (apply sig_ok_nul, sig_ok_list; repeat constructor).
  assert (HR : NUL ∉ ["R"]%char)
    by (apply sig_ok_nul, sig_ok_list; repeat constructor).
  do 3 (split; [assumption|]).
  destruct (hash_set_add_commute set_LRD ["L"]%char ["R"]%char Hwf HL HR)
    as (a1 & set1 & a2 & set12 & b1 & set2 & b2 & set21
        & H1 & H2 & H3 & H4 & Hsz & _).
  exists a1, set1, a2, set12, b1, set2, b2, set21.
  do 5 (split; [assumption|]).
  assert (Hc : (hash_set_add set_LRD ["L"]%char (len ["L"]%char)
                  ≫= λ r, hash_set_add r.2 ["R"]%char (len ["R"]%char))
               ≫= (λ r, Some (hsize r.2)) = Some 3)
    by (vm_compute; reflexivity).
  rewrite H1 in Hc. simpl in Hc. rewrite H2 in Hc. by injection Hc.
Defined.

Lemma memcmp_prefix (s r : list ascii) :
  memcmp (s ++ r) s (length s) = Some true.
Proof.
  induction s as [|a s IH]; simpl; [by destruct r|].
  rewrite bool_decide_eq_true_2 by done. exact IH.
Qed.

(** X7. A key with a [NUL] byte inside breaks the set for its prefix:
    once such a key [t = s ++ NUL :: u] is stored in the bucket that [s]
    hashes to, the walk takes the inner [NUL] for the terminator, so [s]
    is reported present and can no longer be added, although no node
    holds [s]. *)
Theorem inner_nul_shadows_prefix (set : HashSet) (s u : list ascii) :
  hash_string (s ++ NUL :: u) (len (s ++ NUL :: u)) = hash_string s (len s) →
  ¬ stored set s →
  hash_set_contains set (s ++ NUL :: u) (len (s ++ NUL :: u)) = Some false →
  ∃ set',
    hash_set_add set (s ++ NUL :: u) (len (s ++ NUL :: u)) = Some (true, set')
    ∧ ¬ stored set' s
    ∧ hash_set_contains set' s (len s) = Some true
    ∧ hash_set_add set' s (len s) = Some (false, set').
Proof.
  intros Hh Hst Hc. unfold hash_set_contains in Hc.
  unfold hash_set_add at 1. rewrite Hc. eexists. split; [done|].
  rewrite take_len.
  assert (Hfind : ∀ n rest,
    chain_find
      (bucket {| buckets :=
                   <[hash_string (s ++ NUL :: u) (len (s ++ NUL :: u))
                     := ((s ++ NUL :: u) ++ [NUL]) :: rest]> (buckets set);
                 hsize := n |} (hash_string s (len s))) s (len s)
    = Some true).
  { intros n rest. rewrite bucket_insert, decide_True by done. simpl.
    unfold node_matches, len. rewrite Nat2Z.id.
    rewrite <- !app_assoc, memcmp_prefix.
    change ((NUL :: u) ++ [NUL]) with (NUL :: (u ++ [NUL])).
    rewrite list_lookup_middle by done.
    by rewrite bool_decide_eq_true_2. }
  split; [|split].
  - intros [hash Hin]. rewrite bucket_insert in Hin.
    destruct (decide _) as [_|_]; [|by apply Hst; eexists].
    apply elem_of_cons in Hin as [Heq|Hin]; [|by apply Hst; eexists].
    apply app_inj_tail in Heq as [Heq _].
    apply (f_equal length) in Heq. rewrite length_app in Heq.
    simpl in Heq. lia.
  - unfold hash_set_contains. apply Hfind.
  - unfold hash_set_add. by rewrite Hfind.
Qed.

Lemma inner_nul_shadows_prefix_witness :
  key_inner_nul = ["L"%char] ++ NUL :: ["R"; "R"; "R"; "R"; "R"; "D"; "R"; "R"; "L"; "R"]%char
  ∧ hash_string key_inner_nul (len key_inner_nul)
    = hash_string ["L"%char] (len ["L"%char])
  ∧ ∃ set',
      hash_set_add create_hash_set key_inner_nul (len key_inner_nul)
      = Some (true, set')
      ∧ ¬ stored set' ["L"%char]
      ∧ hash_set_contains set' ["L"%char] 1 = Some true
      ∧ hash_set_add set' ["L"%char] 1 = Some (false, set').
Proof.
  split; [reflexivity|]. split; [vm_compute; reflexivity|].
  apply (inner_nul_shadows_prefix create_hash_set ["L"%char]
           ["R"; "R"; "R"; "R"; "R"; "D"; "R"; "R"; "L"; "R"]%char).
  - vm_compute. reflexivity.
  - apply stored_create.
  - vm_compute. reflexivity.
Defined.

(** ** The storage of the frontier *)

(** X8. [add_path] on a list with a positive capacity and
    [0 <= size <= capacity] succeeds: it stores what the plain list
    model appends, adds one to [size], keeps [size <= capacity], and
    doubles the capacity exactly when the list was full.  On a list of
    capacity 0 the doubling gains nothing and the write is outside the
    block. *)
Theorem add_path_list_capacity (l : PathList) (r c : Z)
    (sig : list ascii) (n : Z) :
  (0 < capacity l → 0 <= psize l <= capacity l →
   ∃ l', add_path_list l r c sig n = Some l'
     ∧ data l' = add_path (data l) r c sig n
     ∧ psize l' = psize l + 1
     ∧ 0 <= psize l' <= capacity l'
     ∧ capacity l'
       = if bool_decide (psize l = capacity l) then 2 * capacity l
         else capacity l)
  ∧ (capacity l = 0 → psize l = 0 → add_path_list l r c sig n = None).
Proof.
  unfold add_path_list. split.
  - intros Hc Hs. destruct (decide (psize l = capacity l)) as [Heq|Hne].
    + rewrite (bool_decide_eq_true_2 (psize l >= capacity l)) by lia.
      rewrite (bool_decide_eq_true_2 (0 <= psize l < capacity l * 2)) by lia.
      rewrite (bool_decide_eq_true_2 (psize l = capacity l)) by done.
      eexists. split; [done|]. simpl. repeat split; lia.
    + rewrite (bool_decide_eq_false_2 (psize l >= capacity l)) by lia.
      rewrite (bool_decide_eq_true_2 (0 <= psize l < capacity l)) by lia.
      rewrite (bool_decide_eq_false_2 (psize l = capacity l)) by done.
      eexists. split; [done|]. simpl. repeat split; lia.
  - intros H0 Hs. rewrite H0, Hs. done.
Qed.

Lemma add_path_list_capacity_witness :
  (∃ l', add_path_list (create_path_list 1) 0 3 [] 0 = Some l'
     ∧ psize l' = 1 ∧ capacity l' = 1
     ∧ ∃ l'', add_path_list l' 1 2 ["L"%char] 1 = Some l''
         ∧ psize l'' = 2 ∧ capacity l'' = 2)
  ∧ add_path_list (create_path_list 0) 0 3 [] 0 = None.
Proof.
  split.
  - destruct (proj1 (add_path_list_capacity (create_path_list 1) 0 3 [] 0))
      as (l' & Hadd & _ & Hs & Hb & Hc); [reflexivity|simpl; lia|].
    change (psize l' = 1) in Hs. change (capacity l' = 1) in Hc.
    exists l'. do 3 (split; [assumption|]).
    destruct (proj1 (add_path_list_capacity l' 1 2 ["L"%char] 1))
      as (l'' & Hadd' & _ & Hs' & _ & Hc'); [lia|lia|].
    rewrite Hs, Hc in *. change (capacity l'' = 2) in Hc'.
    exists l''. split; [assumption|]. split; lia.
  - apply (proj2 (add_path_list_capacity (create_path_list 0) 0 3 [] 0));
      reflexivity.
Defined.

(** X9. However a list is filled after [create_path_list c] with
    [c > 0], no call of [add_path] faults, [size] is the number of
    paths stored, it never exceeds the capacity, and the capacity is
    either still [c] or at most twice the number of paths stored before
    the last one. *)
Theorem built_invariant (c : Z) (l : PathList) :
  0 < c → built c l →
  psize l = Z.of_nat (length (data l))
  ∧ 0 <= psize l <= capacity l
  ∧ (capacity l = c ∨ capacity l <= 2 * (psize l - 1))
  ∧ ∀ r k sig n, ∃ l', add_path_list l r k sig n = Some l'.
Proof.
  intros Hc Hb.
  assert (Hinv : psize l = Z.of_nat (length (data l))
                 ∧ 0 <= psize l <= capacity l
                 ∧ (capacity l = c ∨ capacity l <= 2 * (psize l - 1))).
  { induction Hb as [|l l' r k sig n Hb IH Hadd].
    - simpl. lia.
    - destruct IH as (Hlen & Hs & Hcap).
      unfold add_path_list in Hadd.
      repeat case_bool_decide; simplify_eq; simpl;
        unfold add_path; rewrite length_app; simpl; lia. }
  split; [tauto|]. split; [tauto|]. split; [tauto|].
  intros r k sig n. unfold add_path_list.
  destruct (decide (psize l >= capacity l)).
  - rewrite (bool_decide_eq_true_2 (psize l >= capacity l)) by done.
    rewrite bool_decide_eq_true_2 by lia. eauto.
  - rewrite (bool_decide_eq_false_2 (psize l >= capacity l)) by done.
    rewrite bool_decide_eq_true_2 by lia. eauto.
Qed.

Lemma built_invariant_witness :
  0 < 1000 ∧ built 1000 (create_path_list 1000)
  ∧ ∃ l', add_path_list (create_path_list 1000) 0 7 [] 0 = Some l'.
Proof.
  assert (H : 0 < 1000) by reflexivity.
  split; [exact H|]. split; [constructor|].
  apply (built_invariant 1000 (create_path_list 1000) H (built_create 1000)).
Defined.

(** X10. A generation at most doubles the frontier, so the block of
    [paths->size * 2] paths that [part2] allocates for [new_paths] is
    never outgrown; the [n]-th frontier has at most [2^n] paths. *)
Theorem frontier_at_most_doubles (g : Globals) (start_col : Z) (n : nat) :
  (length (frontier g start_col (S n))
   ≤ 2 * length (frontier g start_col n))%nat
  ∧ (length (frontier g start_col n) ≤ 2 ^ n)%nat.
Proof.
  split; [|apply frontier_length].
  rewrite frontier_step. apply bind_length_le, emitted_length.
Qed.

(** X11. The column of a path is the start column moved by its
    signature: one to the left per L, one to the right per R. *)
Theorem frontier_column (g : Globals) (start_col : Z) (n : nat) (p : Path) :
  p ∈ frontier g start_col n → col p = start_col + drift (signature p).
Proof. apply frontier_col. Qed.

Lemma frontier_column_witness :
  mkPath 1 2 1 ["R"%char] ∈ frontier grid_split 1 1
  ∧ col (mkPath 1 2 1 ["R"%char]) = 1 + drift ["R"%char].
Proof.
  assert (H : mkPath 1 2 1 ["R"%char] ∈ frontier grid_split 1 1)
    by (vm_compute; right; left).
  split; [exact H|]. apply (frontier_column grid_split 1 1 _ H).
Defined.

(** X12. No two paths of a frontier carry the same signature. *)
Theorem frontier_signatures_distinct (g : Globals) (start_col : Z) (n : nat) :
  NoDup (signature <$> frontier g start_col n).
Proof. apply frontier_signatures_NoDup. Qed.

(** X13. Hence the set never meets a duplicate: [part2] returns the
    number of paths of the last frontier, the one on row [height - 1]
    (row 0 when the grid has no row). *)
Theorem part2_counts_last_frontier (g : Globals) (start_col : Z) :
  part2 g start_col
  = Some (Z.of_nat (length (frontier g start_col (Z.to_nat (height g - 1))))).
Proof. apply part2_last_frontier. Qed.

(** X14. On a grid of positive height [part2] returns a count between 0
    and [2 ^ (height - 1)]. *)
Theorem part2_bound (g : Globals) (start_col : Z) :
  0 < height g →
  ∃ count, part2 g start_col = Some count
    ∧ 0 <= count <= 2 ^ (height g - 1).
Proof.
  intros Hh. rewrite part2_last_frontier. eexists. split; [done|].
  pose proof (frontier_length g start_col (last_gen g)) as Hlen.
  apply Nat2Z.inj_le in Hlen. rewrite Nat2Z.inj_pow in Hlen.
  unfold last_gen in *. rewrite Z2Nat.id in Hlen by lia.
  change (Z.of_nat 2) with 2 in Hlen. lia.
Qed.

Lemma part2_bound_witness :
  0 < height grid_split
  ∧ ∃ count, part2 grid_split 1 = Some count ∧ 0 <= count <= 2.
Proof.
  assert (H : 0 < height grid_split) by reflexivity.
  split; [exact H|]. apply (part2_bound grid_split 1 H).
Defined.

(** X15. Without a deflector under the start column, the one path goes
    straight down and [part2] returns 1. *)
Theorem part2_straight (g : Globals) (start_col : Z) :
  (∀ r, 0 < r < height g → grid_at g r start_col ≠ "^"%char) →
  part2 g start_col = Some 1.
Proof.
  intros Hfree. rewrite part2_last_frontier.
  assert (Hf : ∀ n, (n ≤ last_gen g)%nat →
            frontier g start_col n
            = [mkPath (Z.of_nat n) start_col (Z.of_nat n)
                 (replicate n "D"%char)]).
  { induction n as [|n IH]; intros Hn; [done|].
    rewrite frontier_step, IH by lia. csimpl. rewrite app_nil_r.
    assert (Z.of_nat n + 1 < height g) by (unfold last_gen in Hn; lia).
    rewrite emitted_pass; simpl.
    - unfold successor; simpl. f_equal. f_equal; [lia..|].
      symmetry. apply replicate_S_end.
    - done.
    - unfold len. by rewrite length_replicate.
    - apply Hfree. lia. }
  by rewrite Hf.
Qed.

Lemma part2_straight_witness :
  (∀ r, 0 < r < height grid_edge → grid_at grid_edge r 1 ≠ "^"%char)
  ∧ part2 grid_edge 1 = Some 1.
Proof.
  assert (H : ∀ r, 0 < r < height grid_edge →
                   grid_at grid_edge r 1 ≠ "^"%char).
  { intros r Hr. simpl in Hr. replace r with 1 by lia. discriminate. }
  split; [exact H|]. apply (part2_straight grid_edge 1 H).
Defined.

(** X16. In a grid of one column a deflector anywhere below the start
    stops the only path: it has no room on either side, nothing reaches
    the last row, and [part2] returns 0. *)
Theorem part2_one_column_blocked (g : Globals) (r : Z) :
  width g = 1 → 0 < r < height g → grid_at g r 0 = "^"%char →
  part2 g 0 = Some 0.
Proof.
  intros Hw Hr Hc. rewrite part2_last_frontier.
  assert (Hempty : ∀ n, (Z.to_nat r ≤ n)%nat → frontier g 0 n = []).
  { induction n as [|n IH]; intros Hn; [lia|].
    rewrite frontier_step.
    destruct (decide (Z.to_nat r ≤ n)%nat) as [Hle|Hgt];
      [by rewrite IH|].
    assert (r = Z.of_nat n + 1) as Hrn by lia.
    apply bind_nil_all. intros p Hp.
    destruct (frontier_inv _ _ _ _ Hp) as (_ & (Hrow & _) & Hgrid).
    destruct Hgrid as [_ Hcol]; [split; simpl; lia|].
    assert (col p = 0) as Hc0 by lia.
    unfold emitted, expand.
    rewrite bool_decide_eq_false_2 by lia.
    rewrite Hrow, <- Hrn, Hc0, bool_decide_eq_true_2 by done.
    rewrite !bool_decide_eq_false_2 by lia. done. }
  rewrite Hempty; [done|]. unfold last_gen. lia.
Qed.

Lemma part2_one_column_blocked_witness :
  width grid_narrow = 1 ∧ 0 < 1 < height grid_narrow
  ∧ grid_at grid_narrow 1 0 = "^"%char
  ∧ part2 grid_narrow 0 = Some 0.
Proof.
  assert (H1 : width grid_narrow = 1) by reflexivity.
  assert (H2 : 0 < 1 < height grid_narrow) by (simpl; lia).
  assert (H3 : grid_at grid_narrow 1 0 = "^"%char) by reflexivity.
  do 3 (split; [assumption|]).
  apply (part2_one_column_blocked grid_narrow 1 H1 H2 H3).
Defined.

(** ** [main] around the engine *)

Lemma strip_lf_nil (line : list ascii) :
  strip_lf line = [] → line = [] ∨ line = [LF].
Proof.
  unfold strip_lf. case_bool_decide as Hlf; [|by left].
  destruct line as [|a l] using rev_ind; [by left|].
  rewrite removelast_last. intros ->. right.
  rewrite last_snoc in Hlf. by simplify_eq.
Qed.

(** One line of text: skipped when it is empty, stored otherwise, a
    fault when the array is full. *)
Lemma read_line_text line g :
  text_line line → 0 <= height g →
  read_line line g
  = if decide (strip_lf line = []) then Some g
    else if decide (height g < MAX_GRID_SIZE) then
      Some {| grid := grid g ++ [strip_lf line];
              height := height g + 1;
              width := if bool_decide (width g = 0)
                       then Z.of_nat (length (strip_lf line))
                       else width g |}
    else None.
Proof.
  intros [Hnul Hlen] Hh. unfold read_line.
  destruct line as [|a l]; [by rewrite decide_True|].
  set (line := a :: l) in *.
  rewrite bool_decide_eq_false_2 by lia.
  rewrite c_string_text by done.
  rewrite (bool_decide_eq_false_2 (Z.of_nat (length line) = 0))
    by (subst line; simpl; lia).
  unfold strip_lf.
  destruct (bool_decide (last line = Some LF)) eqn:Hlf.
  - apply bool_decide_eq_true in Hlf.
    pose proof (removelast_length_LF _ Hlf) as Hrl.
    destruct (decide (removelast line = [])) as [He|Hne].
    + rewrite bool_decide_eq_true_2; [done|]. rewrite <- Hrl, He. done.
    + rewrite bool_decide_eq_false_2
        by (rewrite <- Hrl; destruct (removelast line); simpl; [done|lia]).
      rewrite <- Hrl.
      destruct (decide (height g < MAX_GRID_SIZE)).
      * by rewrite bool_decide_eq_true_2 by lia.
      * by rewrite bool_decide_eq_false_2 by lia.
  - rewrite decide_False by done.
    rewrite bool_decide_eq_false_2 by (subst line; simpl; lia).
    destruct (decide (height g < MAX_GRID_SIZE)).
    + by rewrite bool_decide_eq_true_2 by lia.
    + by rewrite bool_decide_eq_false_2 by lia.
Qed.

Lemma read_lines_rows lines : ∀ g,
  Forall text_line lines → 0 <= height g <= MAX_GRID_SIZE →
  read_lines lines g
  = if decide (height g + Z.of_nat (length (rows_of lines)) <= MAX_GRID_SIZE)
    then
      Some {| grid := grid g ++ rows_of lines;
              height := height g + Z.of_nat (length (rows_of lines));
              width := if bool_decide (width g = 0)
                       then from_option (λ r, Z.of_nat (length r)) 0
                              (head (rows_of lines))
                       else width g |}
    else None.
Proof.
  induction lines as [|line rest IH]; intros g Hlines Hh.
  - simpl. rewrite decide_True by lia.
    rewrite app_nil_r, Z.add_0_r. destruct g as [gr h w]; simpl.
    f_equal. f_equal. case_bool_decide; congruence.
  - apply Forall_cons in Hlines as [Hline Hrest]. simpl.
    rewrite read_line_text by (done || lia).
    unfold rows_of. rewrite fmap_cons, filter_cons. fold (rows_of rest).
    destruct (decide (strip_lf line = [])) as [He|Hne].
    + destruct (decide (strip_lf line ≠ [])) as [?|_]; [done|].
      simpl. by rewrite IH.
    + destruct (decide (strip_lf line ≠ [])) as [_|?]; [|done].
      destruct (decide (height g < MAX_GRID_SIZE)) as [Hlt|Hge]; simpl.
      * rewrite IH by (done || simpl; lia). simpl.
        destruct (decide (height g + 1 + Z.of_nat (length (rows_of rest))
                          <= MAX_GRID_SIZE)) as [Hfit|Hfit].
        -- rewrite decide_True by lia. f_equal.
           rewrite <- app_assoc. simpl. f_equal; [lia|].
           destruct (decide (width g = 0)) as [Hw|Hw].
           ++ rewrite (bool_decide_eq_true_2 (width g = 0)) by done.
              rewrite bool_decide_eq_false_2; [done|].
              destruct (strip_lf line); simpl; [done|lia].
           ++ rewrite (bool_decide_eq_false_2 (width g = 0)) by done.
              by rewrite bool_decide_eq_false_2.
        -- by rewrite decide_False by lia.
      * by rewrite decide_False by lia.
Qed.

(** X17. What [main] reads from a text without [NUL] bytes: when it has
    at most [MAX_GRID_SIZE] non-empty lines, the grid is the list of
    those lines without their line feed, in order, [height] is their
    number and [width] the length of the first of them (0 when there
    is none), later rows being free to be shorter or longer; with more
    non-empty lines the loop writes past the last row of the array. *)
Theorem read_grid_rows (lines : list (list ascii)) :
  Forall text_line lines →
  read_grid lines
  = if decide (Z.of_nat (length (rows_of lines)) <= MAX_GRID_SIZE)
    then
      Some {| grid := rows_of lines;
              height := Z.of_nat (length (rows_of lines));
              width := from_option (λ r, Z.of_nat (length r)) 0
                         (head (rows_of lines)) |}
    else None.
Proof.
  intros Hlines. unfold read_grid.
  rewrite read_lines_rows by (done || unfold MAX_GRID_SIZE; simpl; lia).
  simpl. by destruct (decide _).
Qed.

Lemma read_grid_rows_witness :
  Forall text_line [ ["S"; "."; LF]; [LF]; ["^"; "."] ]%char
  ∧ read_grid [ ["S"; "."; LF]; [LF]; ["^"; "."] ]%char
    = Some (mkGlobals [ ["S"; "."]; ["^"; "."] ]%char 2 2)
  ∧ Forall text_line (replicate 1001 ["."; LF]%char)
  ∧ read_grid (replicate 1001 ["."; LF]%char) = None.
Proof.
  assert (Ht : ∀ l : list ascii,
            Forall (λ c, c ≠ NUL) l → (length l < 1000)%nat → text_line l).
  { intros l Hl Hlen. split; [|unfold MAX_GRID_SIZE; lia].
    intros Hin. eapply Forall_forall in Hl; [|exact Hin]. done. }
  assert (H1 : Forall text_line [ ["S"; "."; LF]; [LF]; ["^"; "."] ]%char).
  { repeat constructor; apply Ht; simpl; try lia;
      repeat constructor; discriminate. }
  assert (H2 : Forall text_line (replicate 1001 ["."; LF]%char)).
  { apply Forall_replicate, Ht; simpl; [|lia].
    repeat constructor; discriminate. }
  split; [exact H1|]. split.
  { rewrite (read_grid_rows _ H1). reflexivity. }
  split; [exact H2|].
  rewrite (read_grid_rows _ H2). vm_compute. reflexivity.
Defined.

Section scan_more.
Context (g : Globals).

Lemma scan_start_range n : ∀ col,
  0 <= col →
  scan_start g n col = 0
  ∨ (col <= scan_start g n col < col + Z.of_nat n
     ∧ grid_at g 0 (scan_start g n col) = "S"%char).
Proof.
  induction n as [|n IH]; intros col Hcol; simpl; [by left|].
  case_bool_decide as HS.
  - right. split; [lia|done].
  - destruct (IH (col + 1)) as [->|[? ?]]; [lia|by left|].
    right. split; [lia|done].
Qed.
End scan_more.

Lemma find_start_col_bounds (g : Globals) :
  0 <= find_start_col g
  ∧ (0 < width g → find_start_col g < width g)
  ∧ (find_start_col g ≠ 0 →
     grid_at g 0 (find_start_col g) = "S"%char).
Proof.
  unfold find_start_col.
  destruct (scan_start_range g (Z.to_nat (width g)) 0) as [->|[? ?]];
    [lia|repeat split; (lia || done)|].
  repeat split; (lia || done).
Qed.

(** X18. The start column [main] finds is never negative, is below
    [width] whenever the grid has a column, and when it is not 0 it is
    a column of row 0 that holds an S. *)
Theorem find_start_col_range (g : Globals) :
  0 <= find_start_col g
  ∧ (0 < width g → find_start_col g < width g)
  ∧ (find_start_col g ≠ 0 →
     grid_at g 0 (find_start_col g) = "S"%char).
Proof. apply find_start_col_bounds. Qed.

(** X19. From input to engine: whenever [main] has read its input
    without leaving its buffers and the grid has a row, the grid fits
    its array, [part2] is called with a start column inside the grid,
    and every path of every frontier of that run is inside the grid. *)
Theorem main_stays_in_grid (lines : list (list ascii)) (g : Globals)
    (n : nat) (p : Path) :
  read_grid lines = Some g → 0 < height g →
  p ∈ frontier g (find_start_col g) n →
  height g <= MAX_GRID_SIZE ∧ width g < MAX_GRID_SIZE
  ∧ 0 <= find_start_col g < width g
  ∧ 0 <= row p < height g
  ∧ 0 <= col p < width g.
Proof.
  intros Hg Hh Hp.
  destruct (read_grid_loaded lines g Hg) as ((_ & _ & Hwh) & (Hha & Hwa)).
  apply Hwh in Hh as Hw.
  destruct (find_start_col_bounds g) as (H0 & Hlt & _).
  split; [lia|]. split; [lia|]. split; [lia|].
  apply (frontier_in_grid _ _ _ _ Hh (conj H0 (Hlt Hw)) Hp).
Qed.

Lemma main_stays_in_grid_witness :
  let lines := [ ["."; "S"; "."; LF]; ["."; "^"; "."; LF] ]%char in
  let p := mkPath 1 0 1 ["L"%char] in
  read_grid lines = Some grid_split ∧ 0 < height grid_split
  ∧ p ∈ frontier grid_split (find_start_col grid_split) 1
  ∧ 0 <= col p < width grid_split.
Proof.
  assert (H1 : read_grid [ ["."; "S"; "."; LF]; ["."; "^"; "."; LF] ]%char
               = Some grid_split) by (vm_compute; reflexivity).
  assert (H2 : 0 < height grid_split) by reflexivity.
  assert (H3 : mkPath 1 0 1 ["L"%char]
               ∈ frontier grid_split (find_start_col grid_split) 1)
    by (vm_compute; left).
  do 3 (split; [assumption|]).
  apply (main_stays_in_grid _ _ 1 _ H1 H2 H3).
Defined.

Lemma read_lines_blank lines : ∀ g,
  rows_of lines = [] → read_lines lines g = Some g.
Proof.
  induction lines as [|line rest IH]; intros g Hrows; [done|].
  unfold rows_of in Hrows. rewrite fmap_cons, filter_cons in Hrows.
  fold (rows_of rest) in Hrows.
  destruct (decide (strip_lf line ≠ [])) as [Hne|He]; [done|].
  apply dec_stable in He. simpl.
  destruct (strip_lf_nil _ He) as [-> | ->]; simpl; by apply IH.
Qed.

(** X20. An input without any non-empty line leaves the grid empty
    ([height = 0], [width = 0]); [part2] then retires its first path at
    once and [main] reports 1. *)
Theorem main_blank_input (lines : list (list ascii)) :
  rows_of lines = [] → main lines = Some 1.
Proof.
  intros Hrows. unfold main, read_grid.
  rewrite read_lines_blank by done. vm_compute. reflexivity.
Qed.

Lemma main_blank_input_witness :
  rows_of [ [LF]; []; [LF] ] = [] ∧ main [ [LF]; []; [LF] ] = Some 1.
Proof.
  assert (H : rows_of [ [LF]; []; [LF] ] = []) by reflexivity.
  split; [exact H|]. apply (main_blank_input _ H).
Defined.

(** X21. In a grid that fits its array ([height <= MAX_GRID_SIZE]) a
    signature, the symbol appended to it and the terminator always fit
    the [MAX_SIGNATURE_LEN] bytes of their buffer. *)
Theorem signature_within_buffer (g : Globals) (start_col : Z) (n : nat)
    (p : Path) :
  height g <= MAX_GRID_SIZE → p ∈ frontier g start_col n →
  0 <= sig_len p ∧ sig_len p + 1 < MAX_SIGNATURE_LEN
  ∧ len (signature p) = sig_len p.
Proof.
  intros Hh Hp. destruct (signature_fits _ _ _ _ Hh Hp) as [? ?].
  destruct (frontier_inv _ _ _ _ Hp) as (_ & (_ & ? & ? & _) & _).
  repeat split; (lia || congruence).
Qed.

Lemma signature_within_buffer_witness :
  height grid_split <= MAX_GRID_SIZE
  ∧ mkPath 1 0 1 ["L"%char] ∈ frontier grid_split 1 1
  ∧ sig_len (mkPath 1 0 1 ["L"%char]) + 1 < MAX_SIGNATURE_LEN.
Proof.
  assert (H1 : height grid_split <= MAX_GRID_SIZE) by (vm_compute; discriminate).
  assert (H2 : mkPath 1 0 1 ["L"%char] ∈ frontier grid_split 1 1)
    by (vm_compute; left).
  split; [exact H1|]. split; [exact H2|].
  apply (signature_within_buffer grid_split 1 1 _ H1 H2).
Defined.
